(** * Airport record reconciliation against OpenFlights

    A shallow embedding of the [AirportCorrector] class of
    [correct-airports-with-openflights.js]: the name and country
    normalizers, the two lookup maps, the three-stage matcher and the
    corrector that stages the diff.

    JavaScript strings are sequences of UTF-16 code units; they are
    modelled as lists of code units.  Records are duck-typed objects read
    from JSON; they are modelled as finite maps from property names to
    JSON values.  A [TypeError] raised by a method call on a value that
    has no such method is an explicit error result. *)

From Stdlib Require Import NArith ZArith Lia.
From stdpp Require Import gmap strings list fin_maps pretty.

Open Scope N_scope.

(** ** Strings *)

(** A string is the list of its UTF-16 code units. *)
Abbreviation jsstring := (list N).

(** A string literal of the source whose characters are all Basic Latin. *)
Definition lit (s : string) : jsstring :=
  Ascii.N_of_ascii <$> String.list_ascii_of_string s.

(** U+2192 RIGHTWARDS ARROW, used in the correction messages. *)
Definition arrow : N := 8594.

(** ** The host environment

    What the engine provides and the script only calls: JSON numbers
    (IEEE doubles) with their truthiness, strict equality and printing,
    and the Unicode case conversions of [String.prototype]. *)
Class JsHost := {
  number : Type;
  number_truthy : number → bool;
  number_strict_eq : number → number → bool;
  number_to_string : number → jsstring;
  toLowerCase : jsstring → jsstring;
  toUpperCase : jsstring → jsstring
}.

(** ** Character classes of the regular expressions *)

Definition in_range (lo hi c : N) : bool := (lo <=? c) && (c <=? hi).

(** [\w] without the [u] flag: [[A-Za-z0-9_]]. *)
Definition is_word (c : N) : bool :=
  in_range 48 57 c || in_range 65 90 c || (c =? 95) || in_range 97 122 c.

(** [\s], which is also the set [String.prototype.trim] removes:
    WhiteSpace and LineTerminator code points. *)
Definition is_space (c : N) : bool :=
  in_range 9 13 c || (c =? 32) || (c =? 160) || (c =? 5760)
  || in_range 8192 8202 c || (c =? 8232) || (c =? 8233) || (c =? 8239)
  || (c =? 8287) || (c =? 12288) || (c =? 65279).

(** Canonicalization of the [i] flag (no [u] flag) as it acts against a
    Basic Latin pattern character: a code unit outside Basic Latin never
    canonicalizes into it, and inside it only [a-z] change. *)
Definition canonicalize (c : N) : N :=
  if in_range 97 122 c then c - 32 else c.

(** The pattern literal [p] matches at the start of [s], ignoring case. *)
Fixpoint matches_at (p s : jsstring) : bool :=
  match p, s with
  | [], _ => true
  | _ :: _, [] => false
  | a :: p', b :: s' => (canonicalize a =? canonicalize b) && matches_at p' s'
  end.

(** An alternation [p1|p2|...] tried at the start of [s]: the first
    alternative that matches decides the length of the match. *)
Fixpoint first_match (alts : list jsstring) (s : jsstring) : option nat :=
  match alts with
  | [] => None
  | p :: alts' =>
      if matches_at p s then Some (length p) else first_match alts' s
  end.

(** [s.replace(/p1|p2|.../gi, '')]: scan from the left; at each position
    the alternation is tried, a match is dropped and the scan resumes
    after it, otherwise the code unit is kept.  [skip] counts the code
    units of the current match that are still to be dropped. *)
Fixpoint replace_alts (alts : list jsstring) (skip : nat) (s : jsstring)
  : jsstring :=
  match s with
  | [] => []
  | c :: rest =>
      match skip with
      | S k => replace_alts alts k rest
      | O =>
          match first_match alts s with
          | Some (S k) => replace_alts alts k rest
          | _ => c :: replace_alts alts 0 rest
          end
      end
  end.

(** [s.replace(/[^\w\s]/g, '')]. *)
Definition remove_special (s : jsstring) : jsstring :=
  filter (λ c, is_word c || is_space c = true) s.

(** [s.replace(/\s+/g, ' ')]; [in_run] tells that the previous code unit
    was white space, already replaced. *)
Fixpoint collapse_spaces (in_run : bool) (s : jsstring) : jsstring :=
  match s with
  | [] => []
  | c :: rest =>
      if is_space c
      then (if in_run then collapse_spaces true rest
            else 32 :: collapse_spaces true rest)
      else c :: collapse_spaces false rest
  end.

Fixpoint trim_start (s : jsstring) : jsstring :=
  match s with
  | [] => []
  | c :: rest => if is_space c then trim_start rest else s
  end.

Fixpoint trim_end (s : jsstring) : jsstring :=
  match s with
  | [] => []
  | c :: rest =>
      match trim_end rest with
      | [] => if is_space c then [] else [c]
      | rest' => c :: rest'
      end
  end.

(** [s.trim()]. *)
Definition trim (s : jsstring) : jsstring := trim_end (trim_start s).

(** [s.split(sep)] for a separator of one code unit. *)
Fixpoint split (sep : N) (s : jsstring) : list jsstring :=
  match s with
  | [] => [[]]
  | c :: rest =>
      if c =? sep then [] :: split sep rest
      else match split sep rest with
           | w :: ws => (c :: w) :: ws
           | [] => [[c]]
           end
  end.

Fixpoint starts_with (p s : jsstring) : bool :=
  match p, s with
  | [], _ => true
  | _ :: _, [] => false
  | a :: p', b :: s' => (a =? b) && starts_with p' s'
  end.

(** [s.includes(sub)]. *)
Fixpoint includes (s sub : jsstring) : bool :=
  starts_with sub s
  || match s with
     | [] => false
     | _ :: rest => includes rest sub
     end.

Definition jsstring_eqb (a b : jsstring) : bool := bool_decide (a = b).

(** ** The shape of a normalized key *)

(** No two spaces in a row. *)
Fixpoint single_spaced (s : jsstring) : bool :=
  match s with
  | a :: (b :: _) as rest =>
      negb ((a =? 32) && (b =? 32)) && single_spaced rest
  | _ => true
  end.

(** The only white space left is U+0020, never twice in a row and never
    at either end. *)
Definition spaces_normalized (s : jsstring) : Prop :=
  Forall (λ c, is_space c = true → c = 32) s
  ∧ single_spaced s = true
  ∧ trim s = s.

(** The code units a name key is made of: [[A-Za-z0-9_]] and the space. *)
Definition key_unit (c : N) : Prop := is_word c = true ∨ c = 32.

(** Basic Latin letters and digits. *)
Definition is_alnum (c : N) : bool :=
  in_range 48 57 c || in_range 65 90 c || in_range 97 122 c.

(** The code units of [s] that are not white space, in order. *)
Definition visible (s : jsstring) : jsstring :=
  filter (λ c, is_space c = false) s.

(** The maximal runs of code units of [s] that are not white space, in
    order: what is left when [s] is cut at every run of white space. *)
Fixpoint ws_fields (s : jsstring) : list jsstring :=
  match s with
  | [] => []
  | c :: rest =>
      if is_space c then ws_fields rest
      else
        match rest with
        | [] => [[c]]
        | d :: _ =>
            if is_space d then [c] :: ws_fields rest
            else
              match ws_fields rest with
              | w :: ws => (c :: w) :: ws
              | [] => [[c]]
              end
        end
  end.

(** The strings of a list written one after the other with one U+0020
    between neighbours. *)
Definition join_spaces (ws : list jsstring) : jsstring :=
  match ws with
  | [] => []
  | w :: ws' => w ++ flat_map (λ v, 32 :: v) ws'
  end.

(** [p] occurs somewhere in [s], ignoring case: [/p/i.test(s)]. *)
Fixpoint occurs (p s : jsstring) : bool :=
  matches_at p s
  || match s with
     | [] => false
     | _ :: rest => occurs p rest
     end.

(** ** Errors *)

Inductive error := TypeError.

Inductive result (A : Type) :=
  | Ok (a : A)
  | Throw (e : error).
Arguments Ok {A} a.
Arguments Throw {A} e.

#[global] Instance result_ret : MRet result := λ A a, Ok a.
#[global] Instance result_bind : MBind result := λ A B k m,
  match m with
  | Ok a => k a
  | Throw e => Throw e
  end.

#[global] Instance error_eq_dec : EqDecision error.
Proof. solve_decision. Defined.

#[global] Instance result_eq_dec {A} `{EqDecision A} : EqDecision (result A).
Proof. solve_decision. Defined.

Section Corrector.
Context `{JsHost}.

(** ** Values and objects *)

#[warning="-register-all"] Inductive value :=
  | VUndefined
  | VNull
  | VBool (b : bool)
  | VNum (n : number)
  | VStr (s : jsstring)
  | VArr (l : list value)
  | VObj (o : gmap string value).

(** Arrays and objects are compared by identity.  The two operands of
    every [!==] of the script are read from records of two separate
    [JSON.parse] results, so an array or object on one side is never the
    one on the other side. *)
Definition strict_eq (a b : value) : bool :=
  match a, b with
  | VUndefined, VUndefined => true
  | VNull, VNull => true
  | VBool x, VBool y => bool_decide (x = y)
  | VNum x, VNum y => number_strict_eq x y
  | VStr x, VStr y => bool_decide (x = y)
  | _, _ => false
  end.

(** ToBoolean. *)
Definition truthy (v : value) : bool :=
  match v with
  | VUndefined | VNull => false
  | VBool b => b
  | VNum n => number_truthy n
  | VStr s => negb (bool_decide (s = []))
  | VArr _ | VObj _ => true
  end.

(** [a || b]. *)
Definition or_else (a b : value) : value := if truthy a then a else b.

(** ToString, as a template literal applies it.  An array is joined with
    commas, [null] and [undefined] elements printing as nothing.  An
    object parsed from JSON prints through [Object.prototype.toString]
    unless it has a property named [toString] of its own: that one is
    not callable, and the conversion raises. *)
Fixpoint to_string (v : value) : result jsstring :=
  match v with
  | VUndefined => Ok (lit "undefined")
  | VNull => Ok (lit "null")
  | VBool true => Ok (lit "true")
  | VBool false => Ok (lit "false")
  | VNum n => Ok (number_to_string n)
  | VStr s => Ok s
  | VArr l =>
      let element x :=
        match x with
        | VUndefined | VNull => Ok []
        | _ => to_string x
        end in
      (fix join (l : list value) : result jsstring :=
         match l with
         | [] => Ok []
         | [x] => element x
         | x :: l' =>
             s ← element x;
             rest ← join l';
             Ok (s ++ lit "," ++ rest)
         end) l
  | VObj o =>
      if bool_decide (is_Some (o !! "toString")) then Throw TypeError
      else Ok (lit "[object Object]")
  end.

(** [console.log] of a template literal: the interpolated values are
    converted to strings from left to right, which may raise; the text
    printed is not part of the model. *)
Fixpoint console_log (interpolated : list value) : result unit :=
  match interpolated with
  | [] => Ok ()
  | v :: rest =>
      _ ← to_string v;
      console_log rest
  end.

(** A record is an object: a finite map from property names to values. *)
Abbreviation obj := (gmap string value).

(** [o.k]: a missing property reads as [undefined] (none of the names
    the script reads is defined by [Object.prototype]). *)
Definition get (o : obj) (k : string) : value := default VUndefined (o !! k).

(** [v.toLowerCase()] and [v.toUpperCase()]: only a string has the
    method; on anything else the call raises a [TypeError]. *)
Definition call_toLowerCase (v : value) : result jsstring :=
  match v with
  | VStr s => Ok (toLowerCase s)
  | _ => Throw TypeError
  end.

Definition call_toUpperCase (v : value) : result jsstring :=
  match v with
  | VStr s => Ok (toUpperCase s)
  | _ => Throw TypeError
  end.

(** ** Normalizer *)

Definition name_words : list jsstring :=
  [lit "international"; lit "airport"; lit "air base"; lit "airfield";
   lit "aerodrome"].

Definition country_phrases : list jsstring :=
  [lit "republic of"; lit "kingdom of";
   lit "people's democratic republic of"; lit "democratic republic of"].

Definition normalizeName (name : value) : result jsstring :=
  lower ← call_toLowerCase name;
  Ok (trim (collapse_spaces false (remove_special
        (replace_alts name_words 0 lower)))).

Definition normalizeCountry (country : value) : result jsstring :=
  lower ← call_toLowerCase (or_else country (VStr []));
  Ok (trim (collapse_spaces false (replace_alts country_phrases 0 lower))).

(** ** Lookup maps *)

(** A JavaScript [Map] keyed by strings iterates in insertion order, and
    the partial-name search depends on that order: the name index is an
    association list, each key at most once. *)
Abbreviation name_index := (list (jsstring * list obj)).

Fixpoint map_get (m : name_index) (k : jsstring) : option (list obj) :=
  match m with
  | [] => None
  | (k', v) :: m' => if bool_decide (k' = k) then Some v else map_get m' k
  end.

Definition map_has (m : name_index) (k : jsstring) : bool :=
  bool_decide (is_Some (map_get m k)).

(** [m.set(k, v)]: an existing key keeps its place, a new one goes last. *)
Fixpoint map_set (m : name_index) (k : jsstring) (v : list obj) : name_index :=
  match m with
  | [] => [(k, v)]
  | (k', v') :: m' =>
      if bool_decide (k' = k) then (k', v) :: m'
      else (k', v') :: map_set m' k v
  end.

(** The statistics counters of the run. *)
Record stats := {
  total : nat;
  exactNameMatch : nat;
  partialNameMatch : nat;
  iataMatch : nat;
  corrected : nat;
  noMatch : nat
}.

(** The fields of an [AirportCorrector]. *)
Record corrector := {
  correctedAirports : list obj;
  openFlightsData : list obj;
  openFlightsByName : name_index;
  openFlightsByIATA : gmap jsstring obj;
  the_stats : stats
}.

(** One turn of the loop of [createLookupMaps]. *)
Definition index_airport (maps : name_index * gmap jsstring obj) (airport : obj)
  : result (name_index * gmap jsstring obj) :=
  let '(byName, byIATA) := maps in
  byName ←
    (if truthy (get airport "name") then
       normalizedName ← normalizeName (get airport "name");
       let byName :=
         if negb (map_has byName normalizedName)
         then map_set byName normalizedName []
         else byName in
       match map_get byName normalizedName with
       | Some bucket => Ok (map_set byName normalizedName (bucket ++ [airport]))
       | None => Throw TypeError
       end
     else Ok byName);
  byIATA ←
    (if truthy (get airport "iataCode") then
       code ← call_toUpperCase (get airport "iataCode");
       Ok (<[code := airport]> byIATA)
     else Ok byIATA);
  Ok (byName, byIATA).

Fixpoint index_all (maps : name_index * gmap jsstring obj) (data : list obj)
  : result (name_index * gmap jsstring obj) :=
  match data with
  | [] => Ok maps
  | airport :: rest =>
      maps ← index_airport maps airport;
      index_all maps rest
  end.

Definition createLookupMaps (this : corrector) : result corrector :=
  maps ← index_all (openFlightsByName this, openFlightsByIATA this)
                   (openFlightsData this);
  Ok {| correctedAirports := correctedAirports this;
        openFlightsData := openFlightsData this;
        openFlightsByName := maps.1;
        openFlightsByIATA := maps.2;
        the_stats := the_stats this |}.

(** ** Matcher *)

(** [xs.find(p)] for a predicate that may raise. *)
Fixpoint find_first {A} (p : A → result bool) (xs : list A)
  : result (option A) :=
  match xs with
  | [] => Ok None
  | x :: xs' =>
      hit ← p x;
      if hit : bool then Ok (Some x) else find_first p xs'
  end.

(** The callback of both [find] calls:
    [normalizeCountry(a.country) === normalizeCountry(country)]. *)
Definition same_country (country : value) (a : obj) : result bool :=
  theirs ← normalizeCountry (get a "country");
  ours ← normalizeCountry country;
  Ok (bool_decide (theirs = ours)).

(** [s.split(' ').filter(word => word.length > 2)]. *)
Definition significant_words (s : jsstring) : list jsstring :=
  filter (λ word, (2 < length word)%nat) (split 32 s).

(** The words of the candidate that overlap some word of the key. *)
Definition common_words (words openFlightsWords : list jsstring)
  : list jsstring :=
  filter (λ word,
            existsb (λ ofWord, includes ofWord word || includes word ofWord)
                    openFlightsWords = true)
         words.

(** [Math.min(2, Math.ceil(n / 2))]. *)
Definition threshold (n : nat) : nat := Nat.min 2 (Nat.div2 (S n)).

(** The loop of [findPartialNameMatch] over the entries of the map. *)
Fixpoint partial_scan (words : list jsstring) (country : value)
    (entries : name_index) : result (option obj) :=
  match entries with
  | [] => Ok None
  | (openFlightsName, airports) :: rest =>
      let openFlightsWords := significant_words openFlightsName in
      let commonWords := common_words words openFlightsWords in
      if (threshold (length words) <=? length commonWords)%nat then
        countryMatch ← find_first (same_country country) airports;
        match countryMatch with
        | Some a => Ok (Some a)
        | None => partial_scan words country rest
        end
      else partial_scan words country rest
  end.

Definition findPartialNameMatch (this : corrector)
    (normalizedName : jsstring) (country : value) : result (option obj) :=
  if (length normalizedName <? 4)%nat then Ok None
  else
    let words := significant_words normalizedName in
    if (length words =? 0)%nat then Ok None
    else partial_scan words country (openFlightsByName this).

Inductive matchType := exactNameCountry | exactName | partialName | iata.

(** The string the script uses for each strategy. *)
Definition matchType_string (t : matchType) : jsstring :=
  match t with
  | exactNameCountry => lit "exactNameCountry"
  | exactName => lit "exactName"
  | partialName => lit "partialName"
  | iata => lit "iata"
  end.

(** Strategy 3 of [findOpenFlightsMatch]: the IATA code as a fallback. *)
Definition iata_strategy (this : corrector) (yourAirport : obj)
  : result (option (obj * matchType)) :=
  if truthy (get yourAirport "airportCode") then
    code ← call_toUpperCase (get yourAirport "airportCode");
    match openFlightsByIATA this !! code with
    | Some a => Ok (Some (a, iata))
    | None => Ok None
    end
  else Ok None.

Definition findOpenFlightsMatch (this : corrector) (yourAirport : obj)
  : result (option (obj * matchType)) :=
  normalizedYourName ←
    normalizeName (or_else (get yourAirport "airportName") (VStr []));
  let exactMatches := map_get (openFlightsByName this) normalizedYourName in
  match exactMatches with
  | Some ((first :: _) as bucket) =>
      countryMatch ←
        find_first (same_country (get yourAirport "country")) bucket;
      match countryMatch with
      | Some a => Ok (Some (a, exactNameCountry))
      | None => Ok (Some (first, exactName))
      end
  | _ =>
      partialMatch ←
        findPartialNameMatch this normalizedYourName
                             (get yourAirport "country");
      match partialMatch with
      | Some a => Ok (Some (a, partialName))
      | None => iata_strategy this yourAirport
      end
  end.

(** ** Notions used to state the properties *)

(** A field as the data files have it: a string, [null], or missing. *)
Definition stringish (v : value) : Prop :=
  match v with
  | VStr _ | VNull | VUndefined => True
  | _ => False
  end.

(** The compared fields of a candidate and of a reference record are
    strings, [null] or missing. *)
Definition candidate_typed (yourAirport : obj) : Prop :=
  Forall (λ k, stringish (get yourAirport k))
    ["airportCode"; "icaoCode"; "airportName"; "city"; "country"].

Definition reference_typed (openFlightsMatch : obj) : Prop :=
  Forall (λ k, stringish (get openFlightsMatch k))
    ["iataCode"; "icaoCode"; "name"; "city"; "country"].

(** The normalized country key of a field. *)
Definition country_key (v : value) : jsstring :=
  match normalizeCountry v with
  | Ok k => k
  | Throw _ => []
  end.

(** The overlap test of the partial-name strategy for a candidate key and
    a key of the index. *)
Definition partial_hit (normalizedName openFlightsName : jsstring) : bool :=
  let words := significant_words normalizedName in
  (threshold (length words)
   <=? length (common_words words (significant_words openFlightsName)))%nat.

(** Every record of the index has a string, [null] or no country. *)
Definition index_typed (m : name_index) : Prop :=
  Forall (λ e, Forall (λ a, stringish (get a "country")) e.2) m.

(** ** Corrector *)

(** An object literal [{...o, k1: v1, k2: v2, ...}]: the properties are
    written from left to right onto a copy of [o]. *)
Definition with_props (o : obj) (props : list (string * value)) : obj :=
  foldl (λ acc kv, <[kv.1 := kv.2]> acc) o props.

(** The template literal [`label${old} → ${new}`]. *)
Definition correction_message (label : string) (old new : value)
  : result jsstring :=
  old ← to_string old;
  new ← to_string new;
  Ok (lit label ++ old ++ lit " " ++ [arrow] ++ lit " " ++ new).

(** [if (a !== b) corrections.push(`label${a} → ${b}`)]. *)
Definition push_if_differs (label : string) (a b : value)
    (corrections : list jsstring) : result (list jsstring) :=
  if negb (strict_eq a b) then
    msg ← correction_message label a b;
    Ok (corrections ++ [msg])
  else Ok corrections.

Definition needsCorrection (yourAirport openFlightsMatch : obj)
  : result (list jsstring) :=
  let corrections := [] in
  corrections ←
    push_if_differs "IATA: " (get yourAirport "airportCode")
      (get openFlightsMatch "iataCode") corrections;
  corrections ←
    push_if_differs "ICAO: " (get yourAirport "icaoCode")
      (get openFlightsMatch "icaoCode") corrections;
  corrections ←
    push_if_differs "City: " (get yourAirport "city")
      (get openFlightsMatch "city") corrections;
  yourNormalized ← normalizeName (get yourAirport "airportName");
  openFlightsNormalized ← normalizeName (get openFlightsMatch "name");
  if negb (bool_decide (yourNormalized = openFlightsNormalized)) then
    msg ← correction_message "Name: " (get yourAirport "airportName")
            (get openFlightsMatch "name");
    Ok (corrections ++ [msg])
  else Ok corrections.

Definition update_stats (f : stats → stats) (this : corrector) : corrector :=
  {| correctedAirports := correctedAirports this;
     openFlightsData := openFlightsData this;
     openFlightsByName := openFlightsByName this;
     openFlightsByIATA := openFlightsByIATA this;
     the_stats := f (the_stats this) |}.

Definition push_corrected (a : obj) (this : corrector) : corrector :=
  {| correctedAirports := correctedAirports this ++ [a];
     openFlightsData := openFlightsData this;
     openFlightsByName := openFlightsByName this;
     openFlightsByIATA := openFlightsByIATA this;
     the_stats := the_stats this |}.

Definition incr_corrected (s : stats) : stats :=
  {| total := total s; exactNameMatch := exactNameMatch s;
     partialNameMatch := partialNameMatch s; iataMatch := iataMatch s;
     corrected := S (corrected s); noMatch := noMatch s |}.

Definition incr_noMatch (s : stats) : stats :=
  {| total := total s; exactNameMatch := exactNameMatch s;
     partialNameMatch := partialNameMatch s; iataMatch := iataMatch s;
     corrected := corrected s; noMatch := S (noMatch s) |}.

(** The [switch (type)] of [processAirports]. *)
Definition incr_matched (t : matchType) (s : stats) : stats :=
  match t with
  | exactName | exactNameCountry =>
      {| total := total s; exactNameMatch := S (exactNameMatch s);
         partialNameMatch := partialNameMatch s; iataMatch := iataMatch s;
         corrected := corrected s; noMatch := noMatch s |}
  | partialName =>
      {| total := total s; exactNameMatch := exactNameMatch s;
         partialNameMatch := S (partialNameMatch s); iataMatch := iataMatch s;
         corrected := corrected s; noMatch := noMatch s |}
  | iata =>
      {| total := total s; exactNameMatch := exactNameMatch s;
         partialNameMatch := partialNameMatch s; iataMatch := S (iataMatch s);
         corrected := corrected s; noMatch := noMatch s |}
  end.

(** [correctAirport] returns the output record and counts a correction. *)
Definition correctAirport (this : corrector)
    (yourAirport openFlightsMatch : obj) (matchType : value)
  : result (obj * corrector) :=
  corrections ← needsCorrection yourAirport openFlightsMatch;
  if (length corrections =? 0)%nat then
    Ok (with_props yourAirport
          [("correctionStatus", VStr (lit "no_correction_needed"));
           ("matchType", matchType)],
        this)
  else
    let correctedAirport :=
      with_props yourAirport
        [("airportCode", get openFlightsMatch "iataCode");
         ("icaoCode", get openFlightsMatch "icaoCode");
         ("airportName", get openFlightsMatch "name");
         ("city", get openFlightsMatch "city");
         ("country", get openFlightsMatch "country");
         ("correctionStatus", VStr (lit "corrected"));
         ("matchType", matchType);
         ("corrections", VArr (VStr <$> corrections));
         ("originalData",
          VObj (with_props ∅
            [("airportCode", get yourAirport "airportCode");
             ("icaoCode", get yourAirport "icaoCode");
             ("airportName", get yourAirport "airportName");
             ("city", get yourAirport "city");
             ("country", get yourAirport "country")]));
         ("openFlightsData",
          VObj (with_props ∅
            [("id", get openFlightsMatch "id");
             ("latitude", get openFlightsMatch "latitude");
             ("longitude", get openFlightsMatch "longitude");
             ("altitude", get openFlightsMatch "altitude")]))] in
    Ok (correctedAirport, update_stats incr_corrected this).

(** The record pushed for a candidate without a match. *)
Definition unverified_record (yourAirport : obj) : obj :=
  with_props yourAirport
    [("unverified", VBool true);
     ("correctionStatus", VStr (lit "no_match"));
     ("matchType", VStr (lit "none"))].

(** One turn of the loop of [processAirports]. *)
Definition process_airport (this : corrector) (yourAirport : obj)
  : result corrector :=
  _ ← console_log [get yourAirport "airportCode";
                   get yourAirport "airportName"];
  _ ← console_log [get yourAirport "city"; get yourAirport "country"];
  matchResult ← findOpenFlightsMatch this yourAirport;
  match matchResult with
  | Some (match_, type) =>
      _ ← console_log [get match_ "iataCode"; get match_ "icaoCode";
                       get match_ "name"];
      _ ← console_log [get match_ "city"; get match_ "country"];
      '(correctedAirport, this) ←
        correctAirport this yourAirport match_ (VStr (matchType_string type));
      Ok (update_stats (incr_matched type)
            (push_corrected correctedAirport this))
  | None =>
      Ok (update_stats incr_noMatch
            (push_corrected (unverified_record yourAirport) this))
  end.

Fixpoint processAirports (this : corrector) (yourAirports : list obj)
  : result corrector :=
  match yourAirports with
  | [] => Ok this
  | yourAirport :: rest =>
      this ← process_airport this yourAirport;
      processAirports this rest
  end.

(** ** Report *)

(** The two filters of [saveResults]:
    [correctedAirports.filter(a => a.correctionStatus === 'corrected')]
    and [correctedAirports.filter(a => a.unverified === true)]; their
    lengths are the [correctionsMade] and [unverifiedCount] of the
    summary. *)
Definition correctionsOnly (this : corrector) : list obj :=
  filter (λ a, strict_eq (get a "correctionStatus") (VStr (lit "corrected"))
               = true)
         (correctedAirports this).

Definition unverifiedAirports (this : corrector) : list obj :=
  filter (λ a, strict_eq (get a "unverified") (VBool true) = true)
         (correctedAirports this).

(** ** Notions used to state the properties of the maps and of the run *)

(** The key under which [createLookupMaps] files a reference record in
    the name index, if it files it. *)
Definition indexed_name (airport : obj) : option jsstring :=
  if truthy (get airport "name") then
    match normalizeName (get airport "name") with
    | Ok k => Some k
    | Throw _ => None
    end
  else None.

(** The key under which it enters the record in the IATA index. *)
Definition indexed_code (airport : obj) : option jsstring :=
  if truthy (get airport "iataCode") then
    match call_toUpperCase (get airport "iataCode") with
    | Ok c => Some c
    | Throw _ => None
    end
  else None.

(** A reference record whose name and IATA code are strings, [null] or
    missing. *)
Definition reference_indexable (airport : obj) : Prop :=
  stringish (get airport "name") ∧ stringish (get airport "iataCode").

(** A bucket after more records were appended to it. *)
Definition extend_bucket (old : option (list obj)) (added : list obj)
  : option (list obj) :=
  match added with
  | [] => old
  | _ :: _ => Some (default [] old ++ added)
  end.

(** The number of candidates a run has settled, one way or the other. *)
Definition settled (s : stats) : nat :=
  (exactNameMatch s + partialNameMatch s + iataMatch s + noMatch s)%nat.

End Corrector.

Abbreviation obj := (gmap string value).
Abbreviation name_index := (list (jsstring * list obj)).
Arguments with_props : simpl never.

(** ** A concrete host for the examples

    The case conversions below are those of ECMAScript on strings whose
    code units are all below U+0100 (Basic Latin and Latin-1 Supplement);
    code units above are left as they are.  Numbers are the integers,
    printed in decimal. *)

Definition lower_unit (c : N) : N :=
  if in_range 65 90 c then c + 32
  else if in_range 192 222 c && negb (c =? 215) then c + 32
  else c.

Definition upper_unit (c : N) : jsstring :=
  if in_range 97 122 c then [c - 32]
  else if c =? 181 then [924]
  else if c =? 223 then [83; 83]
  else if c =? 255 then [376]
  else if in_range 224 254 c && negb (c =? 247) then [c - 32]
  else [c].

Definition latin1_host : JsHost := {|
  number := Z;
  number_truthy n := negb (n =? 0)%Z;
  number_strict_eq := Z.eqb;
  number_to_string n := lit (pretty n);
  toLowerCase s := lower_unit <$> s;
  toUpperCase s := s ≫= upper_unit
|}.


(** ** Example records *)

Definition str (s : string) : @value latin1_host := VStr (lit s).

(** An object literal. *)
Definition record (props : list (string * @value latin1_host))
  : gmap string (@value latin1_host) :=
  with_props ∅ props.

(** A corrector as its constructor leaves it, with the reference data
    loaded. *)
Definition fresh (data : list (gmap string (@value latin1_host)))
  : @corrector latin1_host :=
  {| correctedAirports := [];
     openFlightsData := data;
     openFlightsByName := [];
     openFlightsByIATA := ∅;
     the_stats := {| total := 0; exactNameMatch := 0; partialNameMatch := 0;
                     iataMatch := 0; corrected := 0; noMatch := 0 |} |}.

(** A corrector with the reference data loaded and indexed. *)
Definition indexed
    (data : list (gmap string (@value latin1_host)))
    (byName : list (jsstring * list (gmap string (@value latin1_host))))
    (byIATA : gmap jsstring (gmap string (@value latin1_host)))
  : @corrector latin1_host :=
  {| correctedAirports := [];
     openFlightsData := data;
     openFlightsByName := byName;
     openFlightsByIATA := byIATA;
     the_stats := {| total := 0; exactNameMatch := 0; partialNameMatch := 0;
                     iataMatch := 0; corrected := 0; noMatch := 0 |} |}.

Definition ref_lax := record
  [("id", @VNum latin1_host 3484%Z);
   ("name", str "Los Angeles International Airport");
   ("city", str "Los Angeles");
   ("country", str "United States");
   ("iataCode", str "LAX");
   ("icaoCode", str "KLAX")].

(** Another reference record that carries the code LAX. *)
Definition ref_other := record
  [("id", @VNum latin1_host 1%Z);
   ("name", str "Laxfield Aerodrome");
   ("city", str "Laxfield");
   ("country", str "Freedonia");
   ("iataCode", str "LAX");
   ("icaoCode", str "FLAX")].

Definition ref_lcy := record
  [("name", str "London City Airport");
   ("city", str "London");
   ("country", str "Elsewhere");
   ("iataCode", str "LCY");
   ("icaoCode", str "EGLC")].

Definition ref_lhr := record
  [("name", str "London Heathrow Airport");
   ("city", str "London");
   ("country", str "United Kingdom");
   ("iataCode", str "LHR");
   ("icaoCode", str "EGLL")].

(** A reference record whose name is made of stripped words only. *)
Definition ref_bare := record
  [("name", str "International Airport");
   ("city", str "Springfield");
   ("country", str "Freedonia");
   ("iataCode", str "SPF");
   ("icaoCode", str "KSPF")].

(** A reference record without a name. *)
Definition ref_nameless := record
  [("name", VNull);
   ("city", str "Springfield");
   ("country", str "Freedonia");
   ("iataCode", str "SPF");
   ("icaoCode", str "KSPF")].

Definition cand_lax := record
  [("airportCode", str "LAX");
   ("airportName", str "Los Angeles International Airport");
   ("icaoCode", str "XXXX");
   ("city", str "Los Angeles");
   ("country", str "United States");
   ("category", str "large")].

Definition cand_heathrow := record
  [("airportCode", str "LHR");
   ("airportName", str "Heathrow Airport London");
   ("city", str "London");
   ("country", str "United Kingdom")].

(** A candidate whose normalized name is short. *)
Definition cand_ely := record
  [("airportCode", str "ELY");
   ("airportName", str "Ely Airport");
   ("city", str "Ely");
   ("country", str "United States")].

(** A candidate with an empty name and an empty code. *)
Definition cand_empty := record
  [("airportCode", str "");
   ("airportName", str "");
   ("city", str "Springfield");
   ("country", str "Freedonia")].

(** A candidate whose name is [null]. *)
Definition cand_null_name := record
  [("airportCode", str "LAX");
   ("airportName", VNull);
   ("city", str "Los Angeles");
   ("country", str "United States")].

(** A candidate named by two short words. *)
Definition cand_short_words := record
  [("airportName", str "ab cd");
   ("country", str "Freedonia")].

(** A second airport with the normalized name of [ref_lax], elsewhere. *)
Definition ref_la_chile := record
  [("name", str "Los Angeles Airport");
   ("city", str "Los Angeles");
   ("country", str "Chile");
   ("iataCode", str "LSQ");
   ("icaoCode", str "SCGE")].

(** The maps [createLookupMaps] builds from three reference records; the
    code LAX ends up on the last record that carries it. *)
Definition corrector_la : @corrector latin1_host :=
  indexed [ref_la_chile; ref_lax; ref_other]
    [(lit "los angeles", [ref_la_chile; ref_lax]);
     (lit "laxfield", [ref_other])]
    (<[lit "LAX" := ref_other]> (<[lit "LSQ" := ref_la_chile]> ∅)).

Definition corrector_london : @corrector latin1_host :=
  indexed [ref_lcy; ref_lhr]
    [(lit "london city", [ref_lcy]); (lit "london heathrow", [ref_lhr])]
    (<[lit "LHR" := ref_lhr]> (<[lit "LCY" := ref_lcy]> ∅)).

Definition corrector_bare : @corrector latin1_host :=
  indexed [ref_bare] [([], [ref_bare])] (<[lit "SPF" := ref_bare]> ∅).

Definition corrector_laxfield : @corrector latin1_host :=
  indexed [ref_other] [(lit "laxfield", [ref_other])]
    (<[lit "LAX" := ref_other]> ∅).

(** A candidate for the name of Los Angeles, in a third country. *)
Definition cand_la_peru := record
  [("airportCode", str "LAP");
   ("airportName", str "Los Angeles Airport");
   ("city", str "Los Angeles");
   ("country", str "Peru")].

(** A candidate that agrees with [ref_lax], its name written otherwise. *)
Definition cand_lax_agrees := record
  [("airportCode", str "LAX");
   ("airportName", str "LOS ANGELES airport");
   ("icaoCode", str "KLAX");
   ("city", str "Los Angeles");
   ("country", str "United States");
   ("category", str "large")].

(** A reference record whose name is a number. *)
Definition ref_numeric_name := record
  [("name", @VNum latin1_host 5%Z);
   ("iataCode", str "NUM")].

(** A reference record and a candidate that both lack a country. *)
Definition ref_no_country := record
  [("name", str "Ely Airport");
   ("city", str "Ely");
   ("country", VNull);
   ("iataCode", str "ELY");
   ("icaoCode", str "KELY")].

Definition cand_no_country := record
  [("airportCode", str "ELY");
   ("airportName", str "Ely Airport");
   ("city", str "Ely")].

Definition corrector_ely : @corrector latin1_host :=
  indexed [ref_no_country] [(lit "ely", [ref_no_country])]
    (<[lit "ELY" := ref_no_country]> ∅).

(** The state after a run over three candidates. *)
Definition run_la : @corrector latin1_host :=
  match processAirports corrector_la [cand_lax; cand_empty; cand_lax_agrees]
  with
  | Ok this => this
  | Throw _ => corrector_la
  end.

(** The properties [correctAirport] writes on its output record. *)
Definition written_keys : list string :=
  ["airportCode"; "icaoCode"; "airportName"; "city"; "country";
   "correctionStatus"; "matchType"; "corrections"; "originalData";
   "openFlightsData"].

(** What the proofs about a second normalization need to know of
    [toLowerCase]: its result has no Basic Latin capital, and it leaves a
    Basic Latin string without capitals as it is. *)
Class HostLaws `{JsHost} : Prop := {
  lower_no_capitals s :
    Forall (λ c, in_range 65 90 c = false) (toLowerCase s);
  lower_fixes_lowercase s :
    Forall (λ c, c < 128 ∧ in_range 65 90 c = false) s → toLowerCase s = s
}.

(** The properties in which an output record of [processAirports] may
    differ from its candidate. *)
Definition output_keys : list string := "unverified" :: written_keys.

(** How an output record of [processAirports] relates to its candidate:
    outside [output_keys] it is the candidate, and it is either corrected,
    found correct, or unverified; only in the last case does the script
    write [unverified]. *)
Definition record_outcome `{JsHost} (yourAirport out : obj) : Prop :=
  (∀ k, k ∉ output_keys → out !! k = yourAirport !! k)
  ∧ ((get out "correctionStatus" = VStr (lit "corrected")
      ∧ get out "unverified" = get yourAirport "unverified")
     ∨ (get out "correctionStatus" = VStr (lit "no_correction_needed")
        ∧ get out "unverified" = get yourAirport "unverified")
     ∨ (get out "correctionStatus" = VStr (lit "no_match")
        ∧ get out "unverified" = VBool true
        ∧ get out "matchType" = VStr (lit "none"))).

(** A reference record and a candidate whose compared fields are well
    typed and whose name is there. *)
Definition reference_ready `{JsHost} (openFlightsMatch : obj) : Prop :=
  reference_typed openFlightsMatch
  ∧ ∃ n, get openFlightsMatch "name" = VStr n.

Definition candidate_ready `{JsHost} (yourAirport : obj) : Prop :=
  candidate_typed yourAirport ∧ ∃ n, get yourAirport "airportName" = VStr n.

(** Every record the lookup maps can return is such a record. *)
Definition maps_ready `{JsHost} (this : corrector) : Prop :=
  (∀ k bucket m, (k, bucket) ∈ openFlightsByName this → m ∈ bucket →
                 reference_ready m)
  ∧ (∀ c m, openFlightsByIATA this !! c = Some m → reference_ready m).

(** * Properties *)

(** ** White space: collapsing and trimming *)

Lemma is_space_32 : is_space 32 = true.
Proof. reflexivity. Qed.

Lemma eqb_32_space c : (c =? 32) = true → is_space c = true.
Proof. intros ->%N.eqb_eq. reflexivity. Qed.

Lemma not_space_not_32 c : is_space c = false → (c =? 32) = false.
Proof.
  intros Hc. destruct (c =? 32) eqn:E; [|done].
  apply eqb_32_space in E. congruence.
Qed.

Lemma collapse_true_head s :
  match collapse_spaces true s with
  | c :: _ => is_space c = false
  | [] => True
  end.
Proof.
  induction s as [|c s IH]; simpl; [done|].
  destruct (is_space c) eqn:E; [exact IH | exact E].
Qed.

Lemma collapse_single_spaced b s :
  single_spaced (collapse_spaces b s) = true.
Proof.
  revert b. induction s as [|c s IH]; intros b; [done|].
  simpl. destruct (is_space c) eqn:E.
  - destruct b; [apply IH|].
    pose proof (collapse_true_head s) as Hh. specialize (IH true).
    destruct (collapse_spaces true s) as [|d r]; [done|].
    change (negb ((32 =? 32) && (d =? 32)) && single_spaced (d :: r) = true).
    rewrite (not_space_not_32 d Hh), IH. reflexivity.
  - specialize (IH false).
    destruct (collapse_spaces false s) as [|d r]; [done|].
    change (negb ((c =? 32) && (d =? 32)) && single_spaced (d :: r) = true).
    rewrite (not_space_not_32 c E), IH. reflexivity.
Qed.

Lemma collapse_Forall (P : N → Prop) b s :
  P 32 → Forall P s → Forall P (collapse_spaces b s).
Proof.
  intros H32 Hs. revert b.
  induction Hs as [|c s Hc Hs IH]; intros b; simpl; [constructor|].
  destruct (is_space c); [destruct b|]; auto.
Qed.

Lemma collapse_only_32 b s :
  Forall (λ c, is_space c = true → c = 32) (collapse_spaces b s).
Proof.
  revert b. induction s as [|c s IH]; intros b; simpl; [constructor|].
  destruct (is_space c) eqn:E; [destruct b|]; auto.
  constructor; [congruence | auto].
Qed.

Lemma collapse_visible b s : visible (collapse_spaces b s) = visible s.
Proof.
  revert b. unfold visible.
  induction s as [|c s IH]; intros b; simpl; [done|].
  destruct (is_space c) eqn:E.
  - rewrite (filter_cons_False _ c) by congruence.
    destruct b; [apply IH|].
    rewrite filter_cons_False by (rewrite is_space_32; congruence).
    apply IH.
  - rewrite !filter_cons_True by done. f_equal. apply IH.
Qed.

Lemma trim_start_suffix s : trim_start s `suffix_of` s.
Proof.
  induction s as [|c s IH]; simpl; [done|].
  destruct (is_space c); [by apply suffix_cons_r | done].
Qed.

Lemma trim_start_head s :
  match trim_start s with
  | c :: _ => is_space c = false
  | [] => True
  end.
Proof.
  induction s as [|c s IH]; simpl; [done|].
  destruct (is_space c) eqn:E; [exact IH | exact E].
Qed.

Lemma trim_start_visible s : visible (trim_start s) = visible s.
Proof.
  unfold visible. induction s as [|c s IH]; simpl; [done|].
  destruct (is_space c) eqn:E; [|done].
  rewrite (filter_cons_False _ c) by congruence. apply IH.
Qed.

Lemma trim_end_prefix s : trim_end s `prefix_of` s.
Proof.
  induction s as [|c s IH]; simpl; [done|].
  destruct (trim_end s) as [|d r] eqn:E.
  - destruct (is_space c); [apply prefix_nil|].
    apply prefix_cons, prefix_nil.
  - by apply prefix_cons.
Qed.

Lemma trim_end_idem s : trim_end (trim_end s) = trim_end s.
Proof.
  induction s as [|c s IH]; simpl; [done|].
  destruct (trim_end s) as [|d r] eqn:E.
  - destruct (is_space c) eqn:Ec; simpl; [done|]. by rewrite Ec.
  - change (trim_end (c :: d :: r)) with
      (match trim_end (d :: r) with
       | [] => if is_space c then [] else [c]
       | rest' => c :: rest'
       end).
    by rewrite IH.
Qed.

Lemma trim_end_head c s :
  is_space c = false → ∃ r, trim_end (c :: s) = c :: r.
Proof.
  intros Hc. simpl. destruct (trim_end s); rewrite ?Hc; eauto.
Qed.

Lemma trim_end_visible s : visible (trim_end s) = visible s.
Proof.
  unfold visible. induction s as [|c s IH]; simpl; [done|].
  destruct (trim_end s) as [|d r] eqn:E.
  - destruct (is_space c) eqn:Ec.
    + rewrite filter_cons_False by congruence. by rewrite <- IH.
    + rewrite !filter_cons_True by done. by rewrite <- IH.
  - destruct (is_space c) eqn:Ec.
    + rewrite !(filter_cons_False _ c) by congruence. exact IH.
    + rewrite !(filter_cons_True _ c) by done. by rewrite IH.
Qed.

Lemma trim_idem s : trim (trim s) = trim s.
Proof.
  unfold trim. pose proof (trim_start_head s) as Hh.
  destruct (trim_start s) as [|c r]; [done|].
  destruct (trim_end_head c r Hh) as [r' Hr]. rewrite Hr.
  simpl trim_start. rewrite Hh, <- Hr. apply trim_end_idem.
Qed.

Lemma trim_visible s : visible (trim s) = visible s.
Proof. unfold trim. by rewrite trim_end_visible, trim_start_visible. Qed.

Lemma single_spaced_tail c s :
  single_spaced (c :: s) = true → single_spaced s = true.
Proof. destruct s; [done|]. simpl. intros [_ ?]%andb_true_iff. done. Qed.

Lemma single_spaced_suffix s t :
  s `suffix_of` t → single_spaced t = true → single_spaced s = true.
Proof.
  intros [pre ->]. induction pre as [|c pre IH]; [done|].
  intros Ht. apply IH. exact (single_spaced_tail _ _ Ht).
Qed.

Lemma single_spaced_prefix s t :
  s `prefix_of` t → single_spaced t = true → single_spaced s = true.
Proof.
  revert t. induction s as [|a s IH]; intros t [suf ->] Ht; [done|].
  destruct s as [|b s]; [done|].
  simpl in Ht. apply andb_true_iff in Ht as [Hab Ht].
  change (negb ((a =? 32) && (b =? 32)) && single_spaced (b :: s) = true).
  rewrite Hab. simpl. apply (IH ((b :: s) ++ suf)); [by eexists | exact Ht].
Qed.

Lemma Forall_suffix {A} (P : A → Prop) s t :
  s `suffix_of` t → Forall P t → Forall P s.
Proof. intros [pre ->] Ht. by apply Forall_app in Ht as [_ ?]. Qed.

Lemma Forall_prefix {A} (P : A → Prop) s t :
  s `prefix_of` t → Forall P t → Forall P s.
Proof. intros [suf ->] Ht. by apply Forall_app in Ht as [? _]. Qed.

Lemma trim_Forall (P : N → Prop) s : Forall P s → Forall P (trim s).
Proof.
  intros Hs. unfold trim.
  eapply Forall_prefix; [apply trim_end_prefix|].
  eapply Forall_suffix; [apply trim_start_suffix | done].
Qed.

Lemma trim_single_spaced s :
  single_spaced s = true → single_spaced (trim s) = true.
Proof.
  intros Hs. unfold trim.
  eapply single_spaced_prefix; [apply trim_end_prefix|].
  eapply single_spaced_suffix; [apply trim_start_suffix | done].
Qed.

(** Collapsing then trimming leaves white space normalized. *)
Lemma trim_collapse_normalized s :
  spaces_normalized (trim (collapse_spaces false s)).
Proof.
  split; [|split].
  - apply trim_Forall, collapse_only_32.
  - apply trim_single_spaced, collapse_single_spaced.
  - apply trim_idem.
Qed.

(** ** The regular-expression replacements *)

Lemma replace_alts_Forall (P : N → Prop) alts n s :
  Forall P s → Forall P (replace_alts alts n s).
Proof.
  intros Hs. revert n.
  induction Hs as [|c s Hc Hs IH]; intros n; simpl; [constructor|].
  destruct n; [|apply IH].
  destruct (first_match alts (c :: s)) as [[|k]|]; auto.
Qed.

Lemma occurs_suffix p s t :
  occurs p s = false → t `suffix_of` s → matches_at p t = false.
Proof.
  intros Ho [pre ->]. induction pre as [|c pre IH]; simpl in Ho.
  - destruct t; simpl in Ho; by apply orb_false_iff in Ho as [? _].
  - apply IH. by apply orb_false_iff in Ho as [_ ?].
Qed.

Lemma first_match_none alts s t :
  existsb (λ w, occurs w s) alts = false →
  t `suffix_of` s → first_match alts t = None.
Proof.
  intros Ho Ht. induction alts as [|p alts IH]; [done|].
  simpl in Ho. apply orb_false_iff in Ho as [Hp Ho].
  simpl. rewrite (occurs_suffix p s t Hp Ht). by apply IH.
Qed.

Lemma replace_alts_absent alts s :
  existsb (λ w, occurs w s) alts = false → replace_alts alts 0 s = s.
Proof.
  intros Ho.
  assert (∀ t, t `suffix_of` s → replace_alts alts 0 t = t) as Hall;
    [|by apply Hall].
  intros t. induction t as [|c t IH]; intros Ht; [done|].
  simpl. rewrite (first_match_none alts s (c :: t) Ho Ht).
  f_equal. apply IH. by eapply suffix_cons_l.
Qed.

Lemma remove_special_units s :
  Forall (λ c, is_word c = true ∨ is_space c = true) (remove_special s).
Proof.
  unfold remove_special. apply Forall_forall. intros c Hc.
  apply list_elem_of_filter in Hc as [Hc _]. by apply orb_true_iff in Hc.
Qed.

Lemma remove_special_key_units s :
  Forall key_unit s → remove_special s = s.
Proof.
  unfold remove_special. induction 1 as [|c s Hc Hs IH]; [done|].
  rewrite filter_cons_True; [by rewrite IH|].
  destruct Hc as [-> | ->]; [done | apply orb_true_r].
Qed.

Lemma collapse_key_units b s :
  Forall (λ c, is_word c = true ∨ is_space c = true) s →
  Forall key_unit (collapse_spaces b s).
Proof.
  intros Hs. revert b.
  induction Hs as [|c s Hc Hs IH]; intros b; simpl; [constructor|].
  destruct (is_space c) eqn:E.
  - destruct b; [apply IH|]. constructor; [by right | apply IH].
  - constructor; [|apply IH]. left. destruct Hc; congruence.
Qed.

Lemma collapse_true_false s :
  match s with c :: _ => is_space c = false | [] => True end →
  collapse_spaces true s = collapse_spaces false s.
Proof. destruct s as [|c s]; [done|]. simpl. by intros ->. Qed.

Lemma collapse_normalized s :
  Forall (λ c, is_space c = true → c = 32) s →
  single_spaced s = true → collapse_spaces false s = s.
Proof.
  induction 1 as [|c s Hc Hs IH]; intros Hss; [done|].
  pose proof (single_spaced_tail _ _ Hss) as Ht.
  simpl. destruct (is_space c) eqn:E.
  - rewrite (Hc eq_refl) in *. f_equal.
    rewrite collapse_true_false; [by apply IH|].
    destruct s as [|d s]; [done|].
    simpl in Hss. apply andb_true_iff in Hss as [Hd _].
    destruct (is_space d) eqn:Ed; [|done].
    inversion Hs as [|? ? Hd32 _]; subst. rewrite (Hd32 Ed) in Hd. done.
  - f_equal. by apply IH.
Qed.

Lemma in_range_spec lo hi c : in_range lo hi c = true ↔ lo ≤ c ∧ c ≤ hi.
Proof. unfold in_range. rewrite andb_true_iff, !N.leb_le. done. Qed.

Lemma is_word_bounds c : is_word c = true → 48 ≤ c ∧ c ≤ 122.
Proof.
  unfold is_word. rewrite !orb_true_iff, !in_range_spec, N.eqb_eq. lia.
Qed.

Lemma is_space_bounds c : is_space c = true → c ≤ 32 ∨ 160 ≤ c.
Proof.
  unfold is_space. rewrite !orb_true_iff, !in_range_spec, !N.eqb_eq. lia.
Qed.

Lemma is_word_not_space c : is_word c = true → is_space c = false.
Proof.
  intros Hw%is_word_bounds. destruct (is_space c) eqn:E; [|done].
  apply is_space_bounds in E. lia.
Qed.

Lemma key_unit_only_32 s :
  Forall key_unit s → Forall (λ c, is_space c = true → c = 32) s.
Proof.
  intros Hk. eapply Forall_impl; [exact Hk|].
  intros c [Hw | ->] Hs; [|done].
  apply is_word_not_space in Hw. congruence.
Qed.

(** ** Collapsing and trimming, said with words *)

Lemma ws_fields_not_empty s : Forall (λ w, w ≠ []) (ws_fields s).
Proof.
  induction s as [|c s IH]; simpl; [constructor|].
  destruct (is_space c); [done|].
  destruct s as [|d s]; [by repeat constructor|].
  destruct (is_space d); [by constructor|].
  destruct (ws_fields (d :: s)) as [|w ws]; [by repeat constructor|].
  apply Forall_cons in IH as [_ IH]. by constructor.
Qed.

Lemma join_spaces_nil_inv ws :
  Forall (λ w, w ≠ []) ws → join_spaces ws = [] → ws = [].
Proof.
  destruct 1 as [|w ws Hw _]; [done|]. simpl. by destruct w.
Qed.

(** After collapsing, trimming the end leaves the runs that are not white
    space with one space between them, and one space in front when the
    string started with white space and was not in a run already. *)
Lemma trim_end_collapse b s :
  trim_end (collapse_spaces b s)
  = match s with
    | c :: _ =>
        if is_space c && negb b
        then match join_spaces (ws_fields s) with
             | [] => []
             | j => 32 :: j
             end
        else join_spaces (ws_fields s)
    | [] => []
    end.
Proof.
  revert b. induction s as [|c s IH]; intros b; [done|].
  cbn [collapse_spaces ws_fields]. destruct (is_space c) eqn:Ec.
  - destruct b; cbn [andb negb].
    + rewrite (IH true). destruct s as [|d s]; [done|].
      by rewrite andb_false_r.
    + cbn [trim_end]. rewrite (IH true), is_space_32.
      destruct s as [|d s]; [done|]. by rewrite andb_false_r.
  - cbn [andb]. cbn [trim_end]. rewrite (IH false), Ec.
    destruct s as [|d s]; [done|].
    destruct (is_space d) eqn:Ed; cbn [andb negb].
    + pose proof (ws_fields_not_empty (d :: s)) as Hne.
      destruct (ws_fields (d :: s)) as [|w ws] eqn:Hf; [done|].
      apply Forall_cons in Hne as [Hw _].
      destruct w as [|e w]; [done|]. reflexivity.
    + destruct (ws_fields (d :: s)) as [|w ws]; [done|].
      simpl. by destruct (w ++ _).
Qed.

(** Collapsing then trimming gives the runs that are not white space,
    joined by single spaces. *)
Lemma trim_collapse_fields s :
  trim (collapse_spaces false s) = join_spaces (ws_fields s).
Proof.
  unfold trim.
  assert (trim_start (collapse_spaces false s) = collapse_spaces true s)
    as ->.
  { pose proof (collapse_true_head s) as Hh.
    destruct s as [|c s]; [done|]. simpl in *.
    destruct (is_space c) eqn:Ec.
    - simpl. destruct (collapse_spaces true s) as [|d r]; [done|].
      simpl. by rewrite Hh.
    - simpl. by rewrite ?Ec. }
  rewrite (trim_end_collapse true). destruct s as [|c s]; [done|].
  by rewrite andb_false_r.
Qed.

(** ** Lengths *)

Lemma replace_alts_length alts n s :
  (length (replace_alts alts n s) ≤ length s)%nat.
Proof.
  revert n. induction s as [|c s IH]; intros n; simpl; [done|].
  destruct n as [|n]; [|specialize (IH n); lia].
  destruct (first_match alts (c :: s)) as [[|k]|]; simpl.
  - specialize (IH 0%nat). lia.
  - specialize (IH k). lia.
  - specialize (IH 0%nat). lia.
Qed.

Lemma first_match_positive alts s n :
  Forall (λ w, w ≠ []) alts → first_match alts s = Some n → (0 < n)%nat.
Proof.
  induction 1 as [|p alts Hp _ IH]; simpl; [done|].
  destruct (matches_at p s); [|exact IH].
  intros [= <-]. destruct p; [done | simpl; lia].
Qed.

Lemma first_match_None alts s w :
  first_match alts s = None → w ∈ alts → matches_at w s = false.
Proof.
  induction alts as [|p alts IH]; simpl; [by intros _ ?%elem_of_nil|].
  destruct (matches_at p s) eqn:E; [done|].
  intros Hnone [-> | Hin]%elem_of_cons; auto.
Qed.

(** Where one of the alternatives occurs, the replacement shortens the
    string. *)
Lemma replace_alts_shrinks alts s :
  Forall (λ w, w ≠ []) alts →
  existsb (λ w, occurs w s) alts = true →
  (length (replace_alts alts 0 s) < length s)%nat.
Proof.
  intros Hne. induction s as [|c s IH].
  - intros (w & Hin & Hocc)%existsb_exists. apply list_elem_of_In in Hin.
    rewrite Forall_forall in Hne. specialize (Hne w Hin).
    destruct w; [done|]. simpl in Hocc. done.
  - intros (w & Hin & Hocc)%existsb_exists. apply list_elem_of_In in Hin.
    cbn [replace_alts].
    destruct (first_match alts (c :: s)) as [[|k]|] eqn:Hfm.
    + apply (first_match_positive _ _ _ Hne) in Hfm. lia.
    + pose proof (replace_alts_length alts k s). simpl. lia.
    + assert (occurs w s = true) as Hrest.
      { change (matches_at w (c :: s) || occurs w s = true) in Hocc.
        by rewrite (first_match_None _ _ w Hfm Hin) in Hocc. }
      assert (existsb (λ w, occurs w s) alts = true) as Hex.
      { apply existsb_exists. exists w. by rewrite <- list_elem_of_In. }
      specialize (IH Hex). simpl. lia.
Qed.

Lemma collapse_length b s :
  (length (collapse_spaces b s) ≤ length s)%nat.
Proof.
  revert b. induction s as [|c s IH]; intros b; simpl; [done|].
  pose proof (IH true). pose proof (IH false).
  destruct (is_space c); [destruct b|]; simpl; lia.
Qed.

Lemma trim_length s : (length (trim s) ≤ length s)%nat.
Proof.
  unfold trim.
  pose proof (prefix_length _ _ (trim_end_prefix (trim_start s))).
  pose proof (suffix_length _ _ (trim_start_suffix s)). lia.
Qed.

Lemma name_words_not_empty : Forall (λ w, w ≠ []) name_words.
Proof. repeat constructor; vm_compute; discriminate. Qed.

(** ** Normalizer *)

Section NormalizerFacts.
Context `{JsHost}.

Lemma normalizeName_string x :
  normalizeName (VStr x) =
  Ok (trim (collapse_spaces false (remove_special
        (replace_alts name_words 0 (toLowerCase x))))).
Proof. reflexivity. Qed.

Lemma normalizeCountry_string s :
  normalizeCountry (VStr s) =
  Ok (trim (collapse_spaces false
        (replace_alts country_phrases 0 (toLowerCase s)))).
Proof.
  unfold normalizeCountry, or_else. simpl.
  destruct s; reflexivity.
Qed.

(** A missing or null country is normalized like the empty string. *)
Lemma normalizeCountry_nullish v :
  v = VNull ∨ v = VUndefined →
  normalizeCountry v = normalizeCountry (VStr []).
Proof. intros [-> | ->]; reflexivity. Qed.

(** What removing special characters, collapsing and trimming leave. *)
Lemma key_shape_after_cleanup (s : jsstring) :
  let k := trim (collapse_spaces false (remove_special s)) in
  Forall key_unit k ∧ single_spaced k = true ∧ trim k = k.
Proof.
  split; [|split].
  - apply trim_Forall, collapse_key_units, remove_special_units.
  - apply trim_single_spaced, collapse_single_spaced.
  - apply trim_idem.
Qed.


(** C7 (as amended): the country key of a string is the lower-cased
    string without the four phrases, with every run of white space
    collapsed to one space and none left at either end: it is the runs of
    code units that are not white space, joined by single spaces.
    Nothing but the phrases and white space is taken out, so punctuation
    and other special characters stay. *)
Theorem normalizeCountry_key_shape (s : jsstring) :
  ∃ k, normalizeCountry (VStr s) = Ok k
       ∧ k = join_spaces
               (ws_fields (replace_alts country_phrases 0 (toLowerCase s)))
       ∧ spaces_normalized k
       ∧ visible k
         = visible (replace_alts country_phrases 0 (toLowerCase s)).
Proof.
  eexists. split; [apply normalizeCountry_string|]. split_and!.
  - apply trim_collapse_fields.
  - apply trim_collapse_normalized.
  - by rewrite trim_visible, collapse_visible.
Qed.

(** C5: [normalizeName] has no guard for a missing name: on [null] (and
    on [undefined]) the call [name.toLowerCase()] raises, where
    [normalizeCountry] falls back to the empty string. *)
Theorem normalizeName_null_throws :
  normalizeName VNull = Throw TypeError
  ∧ normalizeName VUndefined = Throw TypeError
  ∧ normalizeCountry VNull = normalizeCountry (VStr [])
  ∧ normalizeCountry VUndefined = normalizeCountry (VStr []).
Proof. repeat split. Qed.

(** On strings both normalizers return a key. *)
Lemma normalizers_total_on_strings (s : jsstring) :
  (∃ k, normalizeName (VStr s) = Ok k)
  ∧ (∃ k, normalizeCountry (VStr s) = Ok k).
Proof.
  split; eexists; [apply normalizeName_string | apply normalizeCountry_string].
Qed.

Lemma normalizeName_no_capitals `{!HostLaws} x k :
  normalizeName (VStr x) = Ok k →
  Forall (λ c, in_range 65 90 c = false) k.
Proof.
  rewrite normalizeName_string. intros [= <-].
  apply trim_Forall, collapse_Forall; [done|].
  unfold remove_special. apply Forall_forall. intros c Hc.
  apply list_elem_of_filter in Hc as [_ Hc]. revert c Hc.
  apply Forall_forall, replace_alts_Forall, lower_no_capitals.
Qed.

(** A key in which none of the stripped words occurs is a fixed point. *)
Lemma normalizeName_fixed `{!HostLaws} k :
  Forall key_unit k → single_spaced k = true → trim k = k →
  Forall (λ c, in_range 65 90 c = false) k →
  existsb (λ w, occurs w k) name_words = false →
  normalizeName (VStr k) = Ok k.
Proof.
  intros Hu Hs Ht Hc Hw. rewrite normalizeName_string.
  rewrite lower_fixes_lowercase.
  - rewrite (replace_alts_absent _ _ Hw), (remove_special_key_units _ Hu).
    rewrite (collapse_normalized _ (key_unit_only_32 _ Hu) Hs). by rewrite Ht.
  - apply Forall_forall. intros c Hin. split.
    + rewrite Forall_forall in Hu. destruct (Hu c Hin) as [Hw' | ->]; [|done].
      apply is_word_bounds in Hw'. lia.
    + rewrite Forall_forall in Hc. by apply Hc.
Qed.

(** [toLowerCase] leaves a key as it is. *)
Lemma toLowerCase_key `{!HostLaws} k :
  Forall key_unit k → Forall (λ c, in_range 65 90 c = false) k →
  toLowerCase k = k.
Proof.
  intros Hu Hc. apply lower_fixes_lowercase.
  apply Forall_forall. intros c Hin. split.
  - rewrite Forall_forall in Hu. destruct (Hu c Hin) as [Hw | ->]; [|done].
    apply is_word_bounds in Hw. lia.
  - rewrite Forall_forall in Hc. by apply Hc.
Qed.

(** C4 (as amended): a second normalization returns the key itself when
    none of the five stripped words occurs in it, and a strictly shorter
    key when one does. *)
Theorem normalizeName_idempotent_without_words `{!HostLaws} (x k : jsstring) :
  normalizeName (VStr x) = Ok k →
  (existsb (λ w, occurs w k) name_words = false →
   normalizeName (VStr k) = Ok k)
  ∧ (existsb (λ w, occurs w k) name_words = true →
     ∃ k', normalizeName (VStr k) = Ok k' ∧ (length k' < length k)%nat).
Proof.
  intros Hk.
  pose proof (normalizeName_no_capitals x k Hk) as Hc.
  rewrite normalizeName_string in Hk. injection Hk as <-.
  destruct (key_shape_after_cleanup
              (replace_alts name_words 0 (toLowerCase x))) as (Hu & Hs & Ht).
  split; [intros Hw; by apply normalizeName_fixed|].
  intros Hw. rewrite normalizeName_string, (toLowerCase_key _ Hu Hc).
  eexists. split; [done|].
  pose proof (replace_alts_shrinks _ _ name_words_not_empty Hw) as Hshrink.
  match goal with
  | |- (length (trim (collapse_spaces false (remove_special ?r))) < _)%nat =>
      pose proof (trim_length (collapse_spaces false (remove_special r)));
      pose proof (collapse_length false (remove_special r));
      pose proof (length_filter (λ c, is_word c || is_space c = true) r)
  end.
  unfold remove_special in *. lia.
Qed.

End NormalizerFacts.

(** The concrete host obeys the laws. *)
Lemma latin1_laws : @HostLaws latin1_host.
Proof.
  split; intros s; simpl.
  - apply Forall_fmap, Forall_forall. intros c _. simpl.
    unfold lower_unit.
    destruct (in_range 65 90 c) eqn:E1;
      [|destruct (in_range 192 222 c && negb (c =? 215)) eqn:E2].
    + apply in_range_spec in E1. apply not_true_is_false.
      rewrite in_range_spec. lia.
    + apply andb_true_iff in E2 as [E2 _]. apply in_range_spec in E2.
      apply not_true_is_false. rewrite in_range_spec. lia.
    + exact E1.
  - induction 1 as [|c s [Hc Hn] Hs IH]; [done|].
    rewrite fmap_cons, IH. f_equal. unfold lower_unit. rewrite Hn.
    destruct (in_range 192 222 c) eqn:E; [|done].
    apply in_range_spec in E. lia.
Qed.

(** ** Matcher *)

Section MatcherFacts.
Context `{JsHost}.

Lemma find_first_none {A} (p : A → result bool) xs :
  Forall (λ a, p a = Ok false) xs → find_first p xs = Ok None.
Proof. induction 1 as [|a xs Ha _ IH]; simpl; [done|]. by rewrite Ha. Qed.

Lemma find_first_some {A} (p : A → result bool) pre r post :
  Forall (λ a, p a = Ok false) pre → p r = Ok true →
  find_first p (pre ++ r :: post) = Ok (Some r).
Proof.
  intros Hpre Hr. induction Hpre as [|a pre Ha _ IH]; simpl.
  - by rewrite Hr.
  - by rewrite Ha.
Qed.

Lemma normalizeCountry_stringish v :
  stringish v → normalizeCountry v = Ok (country_key v).
Proof.
  unfold country_key. destruct v; try done; intros _.
  by rewrite normalizeCountry_string.
Qed.

Lemma same_country_stringish country a :
  stringish country → stringish (get a "country") →
  same_country country a
  = Ok (bool_decide (country_key (get a "country") = country_key country)).
Proof.
  intros Hc Ha. unfold same_country.
  by rewrite (normalizeCountry_stringish _ Ha), (normalizeCountry_stringish _ Hc).
Qed.

(** In a bucket of well-typed records, [find] returns the first record of
    the candidate's country, or nothing when there is none. *)
Lemma find_country_split country bucket :
  stringish country →
  Forall (λ a, stringish (get a "country")) bucket →
  (find_first (same_country country) bucket = Ok None
   ∧ Forall (λ a, country_key (get a "country") ≠ country_key country) bucket)
  ∨ (∃ pre r post,
       bucket = pre ++ r :: post
       ∧ Forall (λ a, country_key (get a "country") ≠ country_key country) pre
       ∧ country_key (get r "country") = country_key country
       ∧ find_first (same_country country) bucket = Ok (Some r)).
Proof.
  intros Hc. induction 1 as [|a bucket Ha Hb IH]; [by left|].
  simpl. rewrite (same_country_stringish _ _ Hc Ha).
  case_bool_decide as Hk; simpl.
  - right. exists [], a, bucket. by repeat split.
  - destruct IH as [[-> Hall] | (pre & r & post & -> & Hpre & Hr & ->)].
    + left. by split; [|constructor].
    + right. exists (a :: pre), r, post. repeat split; [|done].
      by constructor.
Qed.

(** C1: when the bucket of the candidate's normalized name holds a record
    of the candidate's country, the match is the first such record of
    the bucket, with strategy [exactNameCountry], whatever the IATA index
    holds. *)
Theorem exact_name_country_priority
    (this : corrector) (yourAirport : obj) (key : jsstring)
    (bucket : list obj) :
  normalizeName (or_else (get yourAirport "airportName") (VStr [])) = Ok key →
  map_get (openFlightsByName this) key = Some bucket →
  stringish (get yourAirport "country") →
  Forall (λ a, stringish (get a "country")) bucket →
  (∃ a, a ∈ bucket
        ∧ country_key (get a "country")
          = country_key (get yourAirport "country")) →
  ∃ pre r post,
    bucket = pre ++ r :: post
    ∧ Forall (λ a, country_key (get a "country")
                   ≠ country_key (get yourAirport "country")) pre
    ∧ country_key (get r "country") = country_key (get yourAirport "country")
    ∧ findOpenFlightsMatch this yourAirport = Ok (Some (r, exactNameCountry)).
Proof.
  intros Hkey Hget Hc Hb (a & Ha & Hka).
  destruct (find_country_split _ _ Hc Hb)
    as [[_ Hall] | (pre & r & post & Hsplit & Hpre & Hr & Hfind)].
  - rewrite Forall_forall in Hall. by destruct (Hall a Ha).
  - exists pre, r, post. repeat split; try done.
    unfold findOpenFlightsMatch. rewrite Hkey. simpl. rewrite Hget.
    destruct bucket as [|first rest]; [by destruct pre|].
    cbv beta iota. by rewrite Hfind.
Qed.

(** The scan of the partial-name strategy stops at the first bucket that
    is a hit and holds a record of the candidate's country. *)
Lemma partial_scan_first words country pre key bucket post bpre r bpost :
  stringish country →
  index_typed (pre ++ [(key, bucket)]) →
  Forall (λ e,
    (threshold (length words)
     <=? length (common_words words (significant_words e.1)))%nat = false
    ∨ Forall (λ a, country_key (get a "country") ≠ country_key country) e.2)
    pre →
  (threshold (length words)
   <=? length (common_words words (significant_words key)))%nat = true →
  bucket = bpre ++ r :: bpost →
  Forall (λ a, country_key (get a "country") ≠ country_key country) bpre →
  country_key (get r "country") = country_key country →
  partial_scan words country (pre ++ (key, bucket) :: post) = Ok (Some r).
Proof.
  intros Hc Hty Hpre Hhit -> Hbpre Hr.
  apply Forall_app in Hty as [Htpre Htb].
  rewrite Forall_singleton in Htb. simpl in Htb.
  assert (find_first (same_country country) (bpre ++ r :: bpost)
          = Ok (Some r)) as Hfound.
  { apply Forall_app in Htb as [Htb1 Htb2]. apply Forall_cons in Htb2 as [Htr _].
    apply find_first_some.
    - rewrite Forall_forall in Hbpre, Htb1. apply Forall_forall. intros a Ha.
      rewrite (same_country_stringish _ _ Hc (Htb1 a Ha)).
      by rewrite bool_decide_eq_false_2 by auto.
    - rewrite (same_country_stringish _ _ Hc Htr).
      by rewrite bool_decide_eq_true_2. }
  induction Hpre as [|[k b] pre Hkb _ IH]; simpl.
  - by rewrite Hhit, Hfound.
  - apply Forall_cons in Htpre as [Htb' Htpre]. simpl in *.
    destruct Hkb as [-> | Hno]; [by apply IH|].
    match goal with |- context [if ?c then _ else _] => destruct c end;
      [|by apply IH].
    rewrite find_first_none; [by apply IH|].
    rewrite Forall_forall in Hno, Htb'. apply Forall_forall. intros a Ha.
    rewrite (same_country_stringish _ _ Hc (Htb' a Ha)).
    by rewrite bool_decide_eq_false_2 by auto.
Qed.

Lemma partial_scan_none words country entries :
  stringish country →
  index_typed entries →
  Forall (λ e,
    (threshold (length words)
     <=? length (common_words words (significant_words e.1)))%nat = false
    ∨ Forall (λ a, country_key (get a "country") ≠ country_key country) e.2)
    entries →
  partial_scan words country entries = Ok None.
Proof.
  intros Hc Hty Hall.
  induction Hall as [|[k b] entries Hkb _ IH]; simpl; [done|].
  apply Forall_cons in Hty as [Htb Hty]. simpl in *.
  destruct Hkb as [-> | Hno]; [by apply IH|].
  match goal with |- context [if ?c then _ else _] => destruct c end;
    [|by apply IH].
  rewrite find_first_none; [by apply IH|].
  rewrite Forall_forall in Hno, Htb. apply Forall_forall. intros a Ha.
  rewrite (same_country_stringish _ _ Hc (Htb a Ha)).
  by rewrite bool_decide_eq_false_2 by auto.
Qed.

(** C2 (as amended): for a normalized name of length at least 4, the
    strategy returns nothing when the name has no word of more than two
    code units; when it has one, a bucket is a hit exactly by the overlap
    test, the strategy returns the first record of the candidate's
    country in the first bucket, in the order of the index, that is a hit
    and has such a record, and it returns nothing when no bucket
    qualifies. *)
Theorem partial_match_first_country_hit
    (this : corrector) (normalizedName : jsstring) (country : value) :
  (4 ≤ length normalizedName)%nat →
  stringish country →
  index_typed (openFlightsByName this) →
  (significant_words normalizedName = [] →
   findPartialNameMatch this normalizedName country = Ok None)
  ∧ (significant_words normalizedName ≠ [] →
     (∀ pre key bucket post bpre r bpost,
        openFlightsByName this = pre ++ (key, bucket) :: post →
        Forall (λ e, partial_hit normalizedName e.1 = false
                     ∨ Forall (λ a, country_key (get a "country")
                                    ≠ country_key country) e.2) pre →
        partial_hit normalizedName key = true →
        bucket = bpre ++ r :: bpost →
        Forall (λ a, country_key (get a "country") ≠ country_key country)
          bpre →
        country_key (get r "country") = country_key country →
        findPartialNameMatch this normalizedName country = Ok (Some r))
     ∧ (Forall (λ e, partial_hit normalizedName e.1 = false
                     ∨ Forall (λ a, country_key (get a "country")
                                    ≠ country_key country) e.2)
               (openFlightsByName this) →
        findPartialNameMatch this normalizedName country = Ok None)).
Proof.
  intros Hlen Hc Hty. split.
  { intros Hnone. unfold findPartialNameMatch.
    destruct (Nat.ltb_spec (length normalizedName) 4); [lia|].
    by rewrite Hnone. }
  intros Hwords.
  assert (findPartialNameMatch this normalizedName country
          = partial_scan (significant_words normalizedName) country
              (openFlightsByName this)) as Hunfold.
  { unfold findPartialNameMatch.
    destruct (Nat.ltb_spec (length normalizedName) 4); [lia|].
    destruct (significant_words normalizedName); done. }
  split.
  - intros pre key bucket post bpre r bpost Hidx Hpre Hhit Hb Hbpre Hr.
    rewrite Hunfold, Hidx.
    eapply partial_scan_first; try done.
    rewrite Hidx in Hty. apply Forall_app in Hty as [Hty1 Hty2].
    apply Forall_cons in Hty2 as [Hty2 _].
    apply Forall_app. split; [done | by constructor].
  - intros Hall. rewrite Hunfold. by apply partial_scan_none.
Qed.

(** C6: a normalized name shorter than 4 never reaches the partial-name
    strategy: that strategy returns nothing, no match is ever reported as
    [partialName], and without an exact-name bucket the result is that of
    the IATA strategy. *)
Theorem short_name_skips_partial
    (this : corrector) (yourAirport : obj) (key : jsstring) :
  normalizeName (or_else (get yourAirport "airportName") (VStr [])) = Ok key →
  (length key < 4)%nat →
  findPartialNameMatch this key (get yourAirport "country") = Ok None
  ∧ (∀ r t, findOpenFlightsMatch this yourAirport = Ok (Some (r, t)) →
            t ≠ partialName)
  ∧ (match map_get (openFlightsByName this) key with
     | Some (_ :: _) => True
     | _ => findOpenFlightsMatch this yourAirport
            = iata_strategy this yourAirport
     end).
Proof.
  intros Hkey Hlen.
  assert (findPartialNameMatch this key (get yourAirport "country") = Ok None)
    as Hpartial.
  { unfold findPartialNameMatch.
    by destruct (Nat.ltb_spec (length key) 4); [|lia]. }
  assert (∀ r t, iata_strategy this yourAirport = Ok (Some (r, t)) →
                 t ≠ partialName) as Hiata.
  { intros r t. unfold iata_strategy.
    destruct (truthy _); [|done].
    destruct (call_toUpperCase _); simpl; [|done].
    destruct (_ !! _); intros ?; by simplify_eq. }
  split; [done|]. unfold findOpenFlightsMatch. rewrite Hkey. simpl.
  destruct (map_get (openFlightsByName this) key) as [[|first rest]|] eqn:Hget;
    rewrite ?Hpartial; simpl; (split; [|done]); try done.
  intros r t.
  destruct (same_country _ first) as [[]|]; simpl; [| |done].
  - intros ?; by simplify_eq.
  - destruct (find_first _ _) as [[a|]|]; simpl; intros ?; by simplify_eq.
Qed.

End MatcherFacts.

(** ** Corrector *)

Section CorrectorFacts.
Context `{JsHost}.

Lemma with_props_lookup_ne (o : obj) props k :
  k ∉ props.*1 → with_props o props !! k = o !! k.
Proof.
  unfold with_props. revert o.
  induction props as [|[k' v] props IH]; intros o Hk; [done|].
  rewrite fmap_cons, not_elem_of_cons in Hk. destruct Hk as [Hne Hk].
  simpl. rewrite IH by done. by rewrite lookup_insert_ne.
Qed.

Lemma get_insert_eq (o : obj) k v : get (<[k:=v]> o) k = v.
Proof. unfold get. by rewrite lookup_insert_eq. Qed.

Lemma get_insert_ne (o : obj) k k' v :
  k ≠ k' → get (<[k:=v]> o) k' = get o k'.
Proof. intros Hne. unfold get. by rewrite lookup_insert_ne. Qed.

Lemma to_string_stringish v : stringish v → ∃ s, to_string v = Ok s.
Proof. destruct v; try done; simpl; eauto. Qed.

Lemma console_log_stringish vs : Forall stringish vs → console_log vs = Ok ().
Proof.
  induction 1 as [|v vs Hv _ IH]; simpl; [done|].
  destruct (to_string_stringish v Hv) as [s ->]. exact IH.
Qed.

Lemma correction_message_stringish label a b :
  stringish a → stringish b → ∃ msg, correction_message label a b = Ok msg.
Proof.
  intros [sa Ha]%to_string_stringish [sb Hb]%to_string_stringish.
  unfold correction_message. rewrite Ha, Hb. simpl. eauto.
Qed.

Lemma push_if_differs_stringish label a b cs :
  stringish a → stringish b →
  ∃ cs', push_if_differs label a b cs = Ok cs'
         ∧ (strict_eq a b = false ∨ cs ≠ [] → cs' ≠ []).
Proof.
  intros Ha Hb. unfold push_if_differs.
  destruct (strict_eq a b); simpl.
  - exists cs. split; [done|]. by intros [? | ?].
  - destruct (correction_message_stringish label a b Ha Hb) as [msg ->].
    simpl. eexists. split; [done|]. intros _ Hnil.
    by apply app_eq_nil in Hnil as [_ ?].
Qed.

Lemma candidate_typed_fields (yourAirport : obj) :
  candidate_typed yourAirport →
  stringish (get yourAirport "airportCode")
  ∧ stringish (get yourAirport "icaoCode")
  ∧ stringish (get yourAirport "airportName")
  ∧ stringish (get yourAirport "city")
  ∧ stringish (get yourAirport "country").
Proof.
  unfold candidate_typed. rewrite !Forall_cons. tauto.
Qed.

Lemma reference_typed_fields (openFlightsMatch : obj) :
  reference_typed openFlightsMatch →
  stringish (get openFlightsMatch "iataCode")
  ∧ stringish (get openFlightsMatch "icaoCode")
  ∧ stringish (get openFlightsMatch "name")
  ∧ stringish (get openFlightsMatch "city")
  ∧ stringish (get openFlightsMatch "country").
Proof.
  unfold reference_typed. rewrite !Forall_cons. tauto.
Qed.

(** With well-typed fields and both names present the diff is computed,
    and it is not empty as soon as one of the four comparisons fails. *)
Lemma needsCorrection_differs (yourAirport openFlightsMatch : obj) n1 n2 :
  candidate_typed yourAirport →
  reference_typed openFlightsMatch →
  get yourAirport "airportName" = VStr n1 →
  get openFlightsMatch "name" = VStr n2 →
  ∃ cs, needsCorrection yourAirport openFlightsMatch = Ok cs
        ∧ (strict_eq (get yourAirport "airportCode")
                     (get openFlightsMatch "iataCode") = false
           ∨ strict_eq (get yourAirport "icaoCode")
                       (get openFlightsMatch "icaoCode") = false
           ∨ strict_eq (get yourAirport "city")
                       (get openFlightsMatch "city") = false
           ∨ normalizeName (VStr n1) ≠ normalizeName (VStr n2)
           → cs ≠ []).
Proof.
  intros (Ha1 & Ha2 & _ & Ha4 & _)%candidate_typed_fields
         (Hb1 & Hb2 & _ & Hb4 & _)%reference_typed_fields Hn1 Hn2.
  unfold needsCorrection.
  destruct (push_if_differs_stringish "IATA: " _ _ [] Ha1 Hb1)
    as (c1 & -> & H1). simpl.
  destruct (push_if_differs_stringish "ICAO: " _ _ c1 Ha2 Hb2)
    as (c2 & -> & H2). simpl.
  destruct (push_if_differs_stringish "City: " _ _ c2 Ha4 Hb4)
    as (c3 & -> & H3). simpl.
  rewrite Hn1, Hn2, !normalizeName_string. simpl.
  case_bool_decide as Hk; simpl.
  - exists c3. split; [done|]. intros [Hd | [Hd | [Hd | Hd]]].
    + apply H3. right. apply H2. right. apply H1. by left.
    + apply H3. right. apply H2. by left.
    + apply H3. by left.
    + by rewrite Hk in Hd.
  - eexists. split; [done|]. intros _ Hnil.
    by apply app_eq_nil in Hnil as [_ ?].
Qed.

Lemma needsCorrection_returns (yourAirport openFlightsMatch : obj) n1 n2 :
  candidate_typed yourAirport →
  reference_typed openFlightsMatch →
  get yourAirport "airportName" = VStr n1 →
  get openFlightsMatch "name" = VStr n2 →
  ∃ cs, needsCorrection yourAirport openFlightsMatch = Ok cs.
Proof.
  intros Hc Hr Hn1 Hn2.
  destruct (needsCorrection_differs _ _ _ _ Hc Hr Hn1 Hn2) as (cs & Hcs & _).
  eauto.
Qed.

(** C3: when at least one compared field differs, the corrected record
    carries the code, ICAO code, name, city and country of the reference
    record, all five, whichever of them differed. *)
Theorem corrected_overwrites_identity
    (this : corrector) (yourAirport openFlightsMatch : obj)
    (matchType : value) (n1 n2 : jsstring) :
  candidate_typed yourAirport →
  reference_typed openFlightsMatch →
  get yourAirport "airportName" = VStr n1 →
  get openFlightsMatch "name" = VStr n2 →
  strict_eq (get yourAirport "airportCode")
            (get openFlightsMatch "iataCode") = false
  ∨ strict_eq (get yourAirport "icaoCode")
              (get openFlightsMatch "icaoCode") = false
  ∨ strict_eq (get yourAirport "city") (get openFlightsMatch "city") = false
  ∨ normalizeName (VStr n1) ≠ normalizeName (VStr n2) →
  ∃ updated,
    correctAirport this yourAirport openFlightsMatch matchType
    = Ok (updated, update_stats incr_corrected this)
    ∧ get updated "correctionStatus" = VStr (lit "corrected")
    ∧ get updated "airportCode" = get openFlightsMatch "iataCode"
    ∧ get updated "icaoCode" = get openFlightsMatch "icaoCode"
    ∧ get updated "airportName" = get openFlightsMatch "name"
    ∧ get updated "city" = get openFlightsMatch "city"
    ∧ get updated "country" = get openFlightsMatch "country".
Proof.
  intros Hc Hr Hn1 Hn2 Hd.
  destruct (needsCorrection_differs _ _ _ _ Hc Hr Hn1 Hn2)
    as (cs & Hcs & Hne).
  specialize (Hne Hd). unfold correctAirport. rewrite Hcs. simpl.
  destruct cs as [|c cs]; [done|]. simpl.
  eexists. split; [reflexivity|].
  unfold with_props. cbn [foldl fst snd].
  repeat split; repeat (rewrite get_insert_ne by done); apply get_insert_eq.
Qed.

(** C10: whenever the diff is computed, [correctAirport] returns a
    record, corrected or not, that keeps every property of the candidate
    other than the ten it writes. *)
Theorem correctAirport_frame
    (this : corrector) (yourAirport openFlightsMatch : obj)
    (matchType : value) (corrections : list jsstring) :
  needsCorrection yourAirport openFlightsMatch = Ok corrections →
  ∃ out this',
    correctAirport this yourAirport openFlightsMatch matchType
    = Ok (out, this')
    ∧ ∀ k, k ∉ written_keys → out !! k = yourAirport !! k.
Proof.
  intros Hcs. unfold correctAirport. rewrite Hcs. simpl.
  destruct (length corrections =? 0)%nat; do 2 eexists;
    (split; [reflexivity|]);
    intros k Hk; apply with_props_lookup_ne; intros Hin; apply Hk;
    revert Hin; unfold written_keys; simpl; rewrite !elem_of_cons; tauto.
Qed.

(** C9 (as amended): a candidate whose name normalizes to the empty
    string and whose code is empty, matched against indexes whose name
    index has no bucket under the empty key, has no match and is pushed
    as unverified. *)
Theorem empty_candidate_unverified (this : corrector) (yourAirport : obj) :
  candidate_typed yourAirport →
  normalizeName (or_else (get yourAirport "airportName") (VStr [])) = Ok [] →
  truthy (get yourAirport "airportCode") = false →
  map_get (openFlightsByName this) [] = None
  ∨ map_get (openFlightsByName this) [] = Some [] →
  findOpenFlightsMatch this yourAirport = Ok None
  ∧ process_airport this yourAirport
    = Ok (update_stats incr_noMatch
            (push_corrected (unverified_record yourAirport) this)).
Proof.
  intros (Ha1 & _ & Ha3 & Ha4 & Ha5)%candidate_typed_fields
         Hname Hcode Hbucket.
  assert (findOpenFlightsMatch this yourAirport = Ok None) as Hnone.
  { unfold findOpenFlightsMatch. rewrite Hname. simpl.
    unfold iata_strategy. rewrite Hcode.
    by destruct Hbucket as [-> | ->]. }
  split; [done|]. unfold process_airport.
  rewrite !console_log_stringish by (repeat constructor; done).
  simpl. by rewrite Hnone.
Qed.

End CorrectorFacts.

(** ** The examples, evaluated *)

(** An equation between closed terms, settled by evaluating both sides
    on the virtual machine; the records are never printed back. *)
Ltac by_evaluation :=
  lazymatch goal with
  | |- ?a = ?b => vm_cast_no_check (@eq_refl _ b)
  end.

Section Examples.
#[local] Existing Instance latin1_host.

Example createLookupMaps_la :
  createLookupMaps (fresh [ref_la_chile; ref_lax; ref_other])
  = Ok corrector_la.
Proof. by_evaluation. Qed.

Example createLookupMaps_london :
  createLookupMaps (fresh [ref_lcy; ref_lhr]) = Ok corrector_london.
Proof. by_evaluation. Qed.

Example createLookupMaps_bare :
  createLookupMaps (fresh [ref_bare]) = Ok corrector_bare.
Proof. by_evaluation. Qed.

Example createLookupMaps_laxfield :
  createLookupMaps (fresh [ref_other]) = Ok corrector_laxfield.
Proof. by_evaluation. Qed.

(** The name decides although the IATA index sends LAX elsewhere. *)
Example match_lax :
  findOpenFlightsMatch corrector_la cand_lax
  = Ok (Some (ref_lax, exactNameCountry))
  ∧ iata_strategy corrector_la cand_lax = Ok (Some (ref_other, iata)).
Proof. split_and!; by_evaluation. Qed.

Example match_heathrow :
  findOpenFlightsMatch corrector_london cand_heathrow
  = Ok (Some (ref_lhr, partialName)).
Proof. by_evaluation. Qed.

Example country_phrases_stripped :
  normalizeCountry (str "People's Democratic Republic of  Korea")
  = Ok (lit "korea")
  ∧ normalizeCountry (str "Democratic Republic of the Congo")
    = Ok (lit "the congo")
  ∧ normalizeCountry (str "United Kingdom of Great Britain")
    = Ok (lit "united great britain").
Proof. split_and!; vm_compute; reflexivity. Qed.

Example country_words_joined :
  ws_fields (lit "  the   congo ") = [lit "the"; lit "congo"]
  ∧ join_spaces (ws_fields (lit "  the   congo ")) = lit "the congo".
Proof. split; vm_compute; reflexivity. Qed.

(** A candidate without a name that is found by its code stops the run:
    [needsCorrection] normalizes the missing name. *)
Example process_airport_null_name_throws :
  findOpenFlightsMatch corrector_la cand_null_name
  = Ok (Some (ref_other, iata))
  ∧ process_airport corrector_la cand_null_name = Throw TypeError.
Proof. split_and!; by_evaluation. Qed.

(** ** Inputs on which a stated property fails *)

(** C4: a second normalization can strip a word that the first one only
    uncovered: "air-port" gives "airport", which gives "". *)
Lemma normalizeName_not_idempotent :
  normalizeName (str "air-port") = Ok (lit "airport")
  ∧ normalizeName (VStr (lit "airport")) = Ok []
  ∧ lit "airport" ≠ [].
Proof. split_and!; vm_compute; [reflexivity | reflexivity | discriminate]. Qed.


(** C7: the country normalizer keeps punctuation that the name
    normalizer removes. *)
Lemma normalizeCountry_keeps_punctuation :
  normalizeCountry (str "U.S.A.") = Ok (lit "u.s.a.")
  ∧ normalizeName (str "U.S.A.") = Ok (lit "usa")
  ∧ is_alnum 46 = false ∧ is_space 46 = false.
Proof. split_and!; vm_compute; reflexivity. Qed.

(** C2: a name of length 5 without a word of more than two code units.
    The threshold is 0, so the overlap test accepts the bucket, and the
    bucket holds a record of the candidate's country; the strategy
    returns nothing all the same. *)
Lemma partial_match_none_without_words :
  normalizeName (get cand_short_words "airportName") = Ok (lit "ab cd")
  ∧ (4 ≤ length (lit "ab cd"))%nat
  ∧ openFlightsByName corrector_laxfield = [(lit "laxfield", [ref_other])]
  ∧ partial_hit (lit "ab cd") (lit "laxfield") = true
  ∧ country_key (get ref_other "country")
    = country_key (get cand_short_words "country")
  ∧ findPartialNameMatch corrector_laxfield (lit "ab cd")
      (get cand_short_words "country") = Ok None.
Proof. split_and!; try by_evaluation. vm_compute. lia. Qed.

(** C9: a reference airport whose name is made of stripped words sits
    under the empty key, and a candidate with an empty name and an empty
    code matches it. *)
Lemma empty_name_matches_bare_reference :
  createLookupMaps (fresh [ref_bare]) = Ok corrector_bare
  ∧ normalizeName (or_else (get cand_empty "airportName") (VStr [])) = Ok []
  ∧ truthy (get cand_empty "airportCode") = false
  ∧ findOpenFlightsMatch corrector_bare cand_empty
    = Ok (Some (ref_bare, exactNameCountry)).
Proof. split_and!; by_evaluation. Qed.

(** ** The theorems at work on the examples *)

Lemma exact_name_country_priority_witness :
  ∃ pre r post,
    [ref_la_chile; ref_lax] = pre ++ r :: post
    ∧ Forall (λ a, country_key (get a "country")
                   ≠ country_key (get cand_lax "country")) pre
    ∧ country_key (get r "country") = country_key (get cand_lax "country")
    ∧ findOpenFlightsMatch corrector_la cand_lax
      = Ok (Some (r, exactNameCountry)).
Proof.
  apply (exact_name_country_priority corrector_la cand_lax (lit "los angeles")).
  - by_evaluation.
  - by_evaluation.
  - vm_compute. exact I.
  - constructor; [vm_compute; exact I|].
    constructor; [vm_compute; exact I | constructor].
  - exists ref_lax. split; [|by_evaluation].
    apply list_elem_of_further, list_elem_of_here.
Defined.

Lemma partial_match_first_country_hit_witness :
  findPartialNameMatch corrector_london (lit "heathrow london")
    (get cand_heathrow "country")
  = Ok (Some ref_lhr).
Proof.
  refine (proj1 (proj2 (partial_match_first_country_hit corrector_london
                          (lit "heathrow london")
                          (get cand_heathrow "country") _ _ _) _)
            [(lit "london city", [ref_lcy])] (lit "london heathrow")
            [ref_lhr] [] [] ref_lhr [] _ _ _ _ _ _).
  - vm_compute. lia.
  - vm_compute. exact I.
  - constructor; [constructor; [vm_compute; exact I | constructor]|].
    constructor; [constructor; [vm_compute; exact I | constructor]|].
    constructor.
  - vm_compute. discriminate.
  - reflexivity.
  - constructor; [|constructor]. right.
    constructor; [|constructor]. vm_compute. discriminate.
  - by_evaluation.
  - reflexivity.
  - constructor.
  - by_evaluation.
Defined.

Lemma corrected_overwrites_identity_witness :
  ∃ updated,
    correctAirport corrector_la cand_lax ref_lax (str "exactNameCountry")
    = Ok (updated, update_stats incr_corrected corrector_la)
    ∧ get updated "correctionStatus" = VStr (lit "corrected")
    ∧ get updated "airportCode" = get ref_lax "iataCode"
    ∧ get updated "icaoCode" = get ref_lax "icaoCode"
    ∧ get updated "airportName" = get ref_lax "name"
    ∧ get updated "city" = get ref_lax "city"
    ∧ get updated "country" = get ref_lax "country".
Proof.
  apply (corrected_overwrites_identity corrector_la cand_lax ref_lax
           (str "exactNameCountry")
           (lit "Los Angeles International Airport")
           (lit "Los Angeles International Airport")).
  - repeat (constructor; [vm_compute; exact I|]). constructor.
  - repeat (constructor; [vm_compute; exact I|]). constructor.
  - by_evaluation.
  - by_evaluation.
  - right. left. by_evaluation.
Defined.

Lemma normalizeName_idempotent_without_words_witness :
  normalizeName (VStr (lit "los angeles")) = Ok (lit "los angeles").
Proof.
  refine (proj1 (@normalizeName_idempotent_without_words latin1_host
                   latin1_laws (lit "Los Angeles International Airport")
                   (lit "los angeles") _) _).
  - vm_compute. reflexivity.
  - vm_compute. reflexivity.
Defined.

(** The other half at work: "airport" is the key of "air-port", the word
    occurs in it, and the second normalization returns a shorter key. *)
Example second_normalization_shortens :
  ∃ k', normalizeName (VStr (lit "airport")) = Ok k'
        ∧ (length k' < length (lit "airport"))%nat.
Proof.
  exists []. split; [vm_compute; reflexivity | vm_compute; lia].
Qed.

Lemma short_name_skips_partial_witness :
  findPartialNameMatch corrector_la (lit "ely") (get cand_ely "country")
  = Ok None
  ∧ (∀ r t, findOpenFlightsMatch corrector_la cand_ely = Ok (Some (r, t)) →
            t ≠ partialName)
  ∧ (match map_get (openFlightsByName corrector_la) (lit "ely") with
     | Some (_ :: _) => True
     | _ => findOpenFlightsMatch corrector_la cand_ely
            = iata_strategy corrector_la cand_ely
     end).
Proof.
  apply (short_name_skips_partial corrector_la cand_ely (lit "ely")).
  - by_evaluation.
  - vm_compute. lia.
Defined.

Lemma empty_candidate_unverified_witness :
  findOpenFlightsMatch corrector_la cand_empty = Ok None
  ∧ process_airport corrector_la cand_empty
    = Ok (update_stats incr_noMatch
            (push_corrected (unverified_record cand_empty) corrector_la)).
Proof.
  apply (empty_candidate_unverified corrector_la cand_empty).
  - repeat (constructor; [vm_compute; exact I|]). constructor.
  - by_evaluation.
  - by_evaluation.
  - left. by_evaluation.
Defined.

Lemma correctAirport_frame_witness :
  ∃ out this',
    correctAirport corrector_la cand_lax ref_lax (str "exactNameCountry")
    = Ok (out, this')
    ∧ ∀ k, k ∉ written_keys → out !! k = cand_lax !! k.
Proof.
  apply (correctAirport_frame corrector_la cand_lax ref_lax
           (str "exactNameCountry")
           [lit "ICAO: XXXX " ++ [arrow] ++ lit " KLAX"]).
  by_evaluation.
Defined.

(** The extra attribute of the candidate is still there after the
    correction, next to the new ICAO code. *)
Example corrected_lax_keeps_category :
  (λ r, '(out, _) ← r; Ok (get out "category", get out "icaoCode"))
    (correctAirport corrector_la cand_lax ref_lax (str "exactNameCountry"))
  = Ok (str "large", str "KLAX").
Proof. by_evaluation. Qed.

End Examples.

(** * Further properties *)

(** ** The lookup maps *)

Section IndexFacts.
Context `{JsHost}.

Lemma map_get_set (m : name_index) k v k' :
  map_get (map_set m k v) k'
  = if bool_decide (k = k') then Some v else map_get m k'.
Proof.
  induction m as [|[k0 v0] m IH]; simpl.
  - by repeat case_bool_decide.
  - destruct (bool_decide (k0 = k)) eqn:E0; simpl.
    + apply bool_decide_eq_true in E0 as ->.
      by repeat case_bool_decide.
    + apply bool_decide_eq_false in E0. rewrite IH.
      repeat case_bool_decide; congruence.
Qed.

Lemma map_set_keys (m : name_index) k v :
  (map_set m k v).*1 = if bool_decide (k ∈ m.*1) then m.*1 else m.*1 ++ [k].
Proof.
  induction m as [|[k0 v0] m IH]; [done|].
  cbn [map_set]. destruct (bool_decide (k0 = k)) eqn:E0; rewrite !fmap_cons.
  - apply bool_decide_eq_true in E0 as ->. cbn [fst].
    by rewrite bool_decide_eq_true_2 by apply list_elem_of_here.
  - apply bool_decide_eq_false in E0. rewrite IH. cbn [fst].
    destruct (bool_decide (k ∈ m.*1)) eqn:E1.
    + apply bool_decide_eq_true in E1.
      by rewrite bool_decide_eq_true_2 by by apply list_elem_of_further.
    + apply bool_decide_eq_false in E1.
      rewrite bool_decide_eq_false_2; [done|].
      intros [? | ?]%elem_of_cons; congruence.
Qed.

Lemma map_set_NoDup (m : name_index) k v :
  NoDup m.*1 → NoDup (map_set m k v).*1.
Proof.
  intros Hm. rewrite map_set_keys. case_bool_decide as Hk; [done|].
  apply NoDup_app. split_and!; [done | | apply NoDup_singleton].
  intros x Hx ->%list_elem_of_singleton. done.
Qed.

Lemma map_get_elem_of (m : name_index) k b :
  map_get m k = Some b → (k, b) ∈ m.
Proof.
  induction m as [|[k0 v0] m IH]; simpl; [done|].
  case_bool_decide as E; [intros [= ->]; subst; left|].
  intros ?. right. auto.
Qed.

Lemma elem_of_map_get (m : name_index) k b :
  NoDup m.*1 → (k, b) ∈ m → map_get m k = Some b.
Proof.
  induction m as [|[k0 v0] m IH]; simpl; [by intros _ ?%elem_of_nil|].
  intros [Hk0 Hm]%NoDup_cons [[= -> ->] | Hin]%elem_of_cons.
  - by rewrite bool_decide_eq_true_2.
  - rewrite bool_decide_eq_false_2; [by apply IH|].
    intros ->. apply Hk0. apply list_elem_of_fmap. by exists (k, b).
Qed.

Lemma extend_bucket_snoc old a added :
  extend_bucket (extend_bucket old [a]) added = extend_bucket old (a :: added).
Proof.
  destruct added as [|b added]; simpl; [done|].
  by rewrite <- app_assoc.
Qed.

Lemma indexed_name_stringish (airport : obj) :
  stringish (get airport "name") →
  if truthy (get airport "name")
  then ∃ k, normalizeName (get airport "name") = Ok k
            ∧ indexed_name airport = Some k
  else indexed_name airport = None.
Proof.
  unfold indexed_name. destruct (get airport "name") as [| | | |s| |];
    try done; intros _.
  destruct (truthy (VStr s)); [|done].
  rewrite normalizeName_string. eauto.
Qed.

Lemma indexed_code_stringish (airport : obj) :
  stringish (get airport "iataCode") →
  if truthy (get airport "iataCode")
  then ∃ c, call_toUpperCase (get airport "iataCode") = Ok c
            ∧ indexed_code airport = Some c
  else indexed_code airport = None.
Proof.
  unfold indexed_code. destruct (get airport "iataCode") as [| | | |s| |];
    try done; intros _.
  destruct (truthy (VStr s)); [|done]. simpl. eauto.
Qed.

(** One turn of the loop on a well-typed record. *)
Lemma index_airport_indexable (byName : name_index)
    (byIATA : gmap jsstring obj) (airport : obj) :
  reference_indexable airport →
  ∃ byName' byIATA',
    index_airport (byName, byIATA) airport = Ok (byName', byIATA')
    ∧ (∀ k, map_get byName' k
            = extend_bucket (map_get byName k)
                (filter (λ a, indexed_name a = Some k) [airport]))
    ∧ (∀ c, byIATA' !! c
            = if decide (indexed_code airport = Some c) then Some airport
              else byIATA !! c)
    ∧ (NoDup byName.*1 → NoDup byName'.*1).
Proof.
  intros [Hn Hc]. unfold index_airport.
  pose proof (indexed_name_stringish airport Hn) as Hname.
  pose proof (indexed_code_stringish airport Hc) as Hcode.
  destruct (truthy (get airport "name")).
  - destruct Hname as (k & -> & Hk). simpl.
    set (byName1 := if negb (map_has byName k) then map_set byName k []
                    else byName).
    assert (∃ bucket, map_get byName1 k = Some bucket
                      ∧ bucket = default [] (map_get byName k)
                      ∧ (∀ k', k' ≠ k → map_get byName1 k' = map_get byName k')
                      ∧ (NoDup byName.*1 → NoDup byName1.*1))
      as (bucket & Hget & Hbucket & Hother & Hnd).
    { unfold byName1, map_has. case_bool_decide as Hhas; simpl.
      - destruct Hhas as [b Hb]. exists b. rewrite Hb. by split_and!.
      - exists []. rewrite map_get_set, bool_decide_eq_true_2 by done.
        split_and!; [done | | | apply map_set_NoDup].
        + destruct (map_get byName k); [|done]. by destruct Hhas.
        + intros k' Hk'. rewrite map_get_set.
          by rewrite bool_decide_eq_false_2 by done. }
    rewrite Hget. simpl.
    assert (∀ byIATA' : gmap jsstring obj,
      (∀ c, byIATA' !! c
            = if decide (indexed_code airport = Some c) then Some airport
              else byIATA !! c) →
      ∃ (byName'0 : name_index) (byIATA'0 : gmap jsstring obj),
        Ok (map_set byName1 k (bucket ++ [airport]), byIATA')
        = Ok (byName'0, byIATA'0)
        ∧ (∀ k0, map_get byName'0 k0
                 = extend_bucket (map_get byName k0)
                     (filter (λ a, indexed_name a = Some k0) [airport]))
        ∧ (∀ c, byIATA'0 !! c
                = if decide (indexed_code airport = Some c) then Some airport
                  else byIATA !! c)
        ∧ (NoDup byName.*1 → NoDup byName'0.*1)) as Hfinish.
    { intros byIATA' Hi. do 2 eexists. split_and!; [done | | done |].
      - intros k0. rewrite map_get_set.
        case_bool_decide as E.
        + subst k0. rewrite filter_cons_True by done. simpl.
          by rewrite Hbucket.
        + rewrite filter_cons_False by (rewrite Hk; congruence).
          simpl. by apply Hother.
      - intros ?. by apply map_set_NoDup, Hnd. }
    destruct (truthy (get airport "iataCode")).
    + destruct Hcode as (c & -> & Hc'). simpl. apply Hfinish.
      intros c'. rewrite Hc'. case_decide as E.
      * injection E as ->. by rewrite lookup_insert_eq.
      * rewrite lookup_insert_ne; [done | congruence].
    + simpl. apply Hfinish. intros c'. rewrite Hcode. by case_decide.
  - simpl.
    assert (∀ k, extend_bucket (map_get byName k)
                   (filter (λ a, indexed_name a = Some k) [airport])
                 = map_get byName k) as Hsame.
    { intros k. by rewrite filter_cons_False by (by rewrite Hname). }
    destruct (truthy (get airport "iataCode")).
    + destruct Hcode as (c & -> & Hc'). simpl. do 2 eexists.
      split_and!; [done | by intros k; rewrite Hsame | | done].
      intros c'. rewrite Hc'. case_decide as E.
      * injection E as ->. by rewrite lookup_insert_eq.
      * rewrite lookup_insert_ne; [done | congruence].
    + simpl. do 2 eexists.
      split_and!; [done | by intros k; rewrite Hsame | | done].
      intros c'. rewrite Hcode. by case_decide.
Qed.

Lemma index_all_indexable (byName : name_index)
    (byIATA : gmap jsstring obj) (data : list obj) :
  Forall reference_indexable data →
  ∃ byName' byIATA',
    index_all (byName, byIATA) data = Ok (byName', byIATA')
    ∧ (∀ k, map_get byName' k
            = extend_bucket (map_get byName k)
                (filter (λ a, indexed_name a = Some k) data))
    ∧ (∀ c, byIATA' !! c
            = match last (filter (λ a, indexed_code a = Some c) data) with
              | Some a => Some a
              | None => byIATA !! c
              end)
    ∧ (NoDup byName.*1 → NoDup byName'.*1).
Proof.
  intros Hdata. revert byName byIATA.
  induction Hdata as [|a data Ha _ IH]; intros byName byIATA.
  - exists byName, byIATA. by split_and!.
  - destruct (index_airport_indexable byName byIATA a Ha)
      as (n1 & i1 & Hstep & Hn1 & Hi1 & Hnd1).
    destruct (IH n1 i1) as (n' & i' & Hrest & Hn' & Hi' & Hnd').
    exists n', i'. split_and!.
    + cbn [index_all]. rewrite Hstep. exact Hrest.
    + intros k. rewrite Hn', Hn1.
      destruct (decide (indexed_name a = Some k)) as [E | E].
      * rewrite (filter_cons_True _ a []) by done.
        rewrite (filter_cons_True _ a data) by done.
        apply extend_bucket_snoc.
      * rewrite (filter_cons_False _ a []) by done.
        by rewrite (filter_cons_False _ a data) by done.
    + intros c. rewrite Hi', Hi1.
      destruct (decide (indexed_code a = Some c)) as [E | E].
      * rewrite (filter_cons_True _ a data) by done. rewrite last_cons.
        by destruct (last _).
      * by rewrite (filter_cons_False _ a data) by done.
    + auto.
Qed.

(** X1: with names and codes that are strings, [null] or missing, the
    build succeeds, and afterwards the bucket of a key holds what it held
    before followed by the records of the reference set whose name
    normalizes to that key, in the order of the reference set. *)
Theorem createLookupMaps_name_buckets (this : corrector) :
  Forall reference_indexable (openFlightsData this) →
  ∃ this',
    createLookupMaps this = Ok this'
    ∧ ∀ k, map_get (openFlightsByName this') k
           = extend_bucket (map_get (openFlightsByName this) k)
               (filter (λ a, indexed_name a = Some k) (openFlightsData this)).
Proof.
  intros Hdata. unfold createLookupMaps.
  destruct (index_all_indexable (openFlightsByName this)
              (openFlightsByIATA this) _ Hdata)
    as (n' & i' & -> & Hn' & _). simpl. eauto.
Qed.

(** X2: the IATA index is last-write-wins: under an upper-cased code it
    holds the last record of the reference set that carries the code,
    and what it held before when there is none. *)
Theorem createLookupMaps_iata_last_wins (this : corrector) :
  Forall reference_indexable (openFlightsData this) →
  ∃ this',
    createLookupMaps this = Ok this'
    ∧ ∀ c, openFlightsByIATA this' !! c
           = match last (filter (λ a, indexed_code a = Some c)
                           (openFlightsData this)) with
             | Some a => Some a
             | None => openFlightsByIATA this !! c
             end.
Proof.
  intros Hdata. unfold createLookupMaps.
  destruct (index_all_indexable (openFlightsByName this)
              (openFlightsByIATA this) _ Hdata)
    as (n' & i' & -> & _ & Hi' & _). simpl. eauto.
Qed.

(** X3: built from empty maps, the name index has every key once and no
    empty bucket, and the bucket of a key is exactly the records filed
    under it. *)
Theorem createLookupMaps_index_well_formed (this this' : corrector) :
  Forall reference_indexable (openFlightsData this) →
  openFlightsByName this = [] →
  createLookupMaps this = Ok this' →
  NoDup (openFlightsByName this').*1
  ∧ ∀ k bucket, (k, bucket) ∈ openFlightsByName this' →
      bucket ≠ []
      ∧ bucket = filter (λ a, indexed_name a = Some k) (openFlightsData this).
Proof.
  intros Hdata Hempty. unfold createLookupMaps.
  destruct (index_all_indexable (openFlightsByName this)
              (openFlightsByIATA this) _ Hdata)
    as (n' & i' & -> & Hn' & _ & Hnd). simpl. intros [= <-]. simpl.
  rewrite Hempty in Hnd, Hn'.
  assert (NoDup n'.*1) as Hnd' by (apply Hnd; constructor).
  split; [done|]. intros k bucket Hin.
  apply (elem_of_map_get _ _ _ Hnd') in Hin. rewrite Hn' in Hin. simpl in Hin.
  destruct (filter _ _) as [|a added]; [done|].
  simpl in Hin. by injection Hin as <-.
Qed.

Lemma index_airport_bad (maps : name_index * gmap jsstring obj) (a : obj) :
  (truthy (get a "name") = true ∧ ∀ s, get a "name" ≠ VStr s)
  ∨ (truthy (get a "iataCode") = true ∧ ∀ s, get a "iataCode" ≠ VStr s) →
  index_airport maps a = Throw TypeError.
Proof.
  destruct maps as [byName byIATA]. unfold index_airport.
  intros [[Ht Hs] | [Ht Hs]].
  - rewrite Ht. destruct (get a "name"); try done. by destruct (Hs s).
  - rewrite Ht.
    assert (call_toUpperCase (get a "iataCode") = Throw TypeError) as ->.
    { destruct (get a "iataCode"); try done. by destruct (Hs s). }
    match goal with |- (?m ≫= _) = _ => destruct m as [?|[]] end; done.
Qed.

(** X4: a reference record whose name, or whose code, is present but not
    a string is not skipped: wherever it stands in the reference set,
    [createLookupMaps] raises a [TypeError]. *)
Theorem createLookupMaps_aborts_on_non_string (this : corrector) (a : obj) :
  a ∈ openFlightsData this →
  (truthy (get a "name") = true ∧ ∀ s, get a "name" ≠ VStr s)
  ∨ (truthy (get a "iataCode") = true ∧ ∀ s, get a "iataCode" ≠ VStr s) →
  createLookupMaps this = Throw TypeError.
Proof.
  intros Hin Hbad. unfold createLookupMaps.
  assert (∀ data maps, a ∈ data → index_all maps data = Throw TypeError)
    as Hall.
  { intros data maps Hdata. revert maps.
    induction Hdata as [a data | a b data _ IH]; intros maps; cbn [index_all].
    - by rewrite (index_airport_bad maps a Hbad).
    - destruct (index_airport maps b) as [maps'|[]]; [|done].
      by apply IH. }
  by rewrite Hall.
Qed.

End IndexFacts.

(** ** What a match tells *)

Section MatchSoundness.
Context `{JsHost}.

Lemma find_first_Some_inv {A} (p : A → result bool) xs r :
  find_first p xs = Ok (Some r) → r ∈ xs ∧ p r = Ok true.
Proof.
  induction xs as [|x xs IH]; simpl; [done|].
  destruct (p x) as [[]|] eqn:E; simpl; [| |done].
  - intros [= <-]. split; [left | done].
  - intros [? ?]%IH. split; [by right | done].
Qed.

Lemma find_first_None_inv {A} (p : A → result bool) xs :
  find_first p xs = Ok None → Forall (λ a, p a = Ok false) xs.
Proof.
  induction xs as [|x xs IH]; simpl; [constructor|].
  destruct (p x) as [[]|] eqn:E; simpl; [done| |done].
  intros ?. constructor; auto.
Qed.

Lemma partial_scan_Some_inv words country (entries : name_index) r :
  partial_scan words country entries = Ok (Some r) →
  ∃ k bucket,
    (k, bucket) ∈ entries
    ∧ (threshold (length words)
       <=? length (common_words words (significant_words k)))%nat = true
    ∧ r ∈ bucket
    ∧ same_country country r = Ok true.
Proof.
  induction entries as [|[k b] entries IH]; simpl; [done|].
  assert (partial_scan words country entries = Ok (Some r) →
          ∃ k0 bucket,
            (k0, bucket) ∈ (k, b) :: entries
            ∧ (threshold (length words)
               <=? length (common_words words (significant_words k0)))%nat
              = true
            ∧ r ∈ bucket ∧ same_country country r = Ok true) as Hrest.
  { intros (k0 & b0 & Hin & ?)%IH. exists k0, b0. split; [by right | done]. }
  destruct (_ <=? _)%nat eqn:Hhit; [|done].
  destruct (find_first (same_country country) b) as [[a|]|] eqn:Hfind;
    simpl; [|done|done].
  intros [= ->]. apply find_first_Some_inv in Hfind as [? ?].
  exists k, b. split_and!; [left | done..].
Qed.

Lemma findPartialNameMatch_inv (this : corrector) key country r :
  findPartialNameMatch this key country = Ok (Some r) →
  (4 ≤ length key)%nat
  ∧ ∃ k bucket,
      (k, bucket) ∈ openFlightsByName this
      ∧ partial_hit key k = true
      ∧ r ∈ bucket
      ∧ same_country country r = Ok true.
Proof.
  unfold findPartialNameMatch.
  destruct (Nat.ltb_spec (length key) 4); [done|].
  destruct (length (significant_words key) =? 0)%nat; [done|].
  intros Hscan%partial_scan_Some_inv. split; [lia | done].
Qed.

(** Which strategy produced a match, and what that says of the record
    and of the strategies tried before. *)
Lemma findOpenFlightsMatch_inv (this : corrector) (yourAirport : obj) r t :
  findOpenFlightsMatch this yourAirport = Ok (Some (r, t)) →
  ∃ key,
    normalizeName (or_else (get yourAirport "airportName") (VStr [])) = Ok key
    ∧ match t with
      | exactNameCountry =>
          ∃ bucket,
            map_get (openFlightsByName this) key = Some bucket
            ∧ r ∈ bucket
            ∧ same_country (get yourAirport "country") r = Ok true
      | exactName =>
          ∃ rest,
            map_get (openFlightsByName this) key = Some (r :: rest)
            ∧ Forall (λ a, same_country (get yourAirport "country") a
                           = Ok false) (r :: rest)
      | partialName =>
          (map_get (openFlightsByName this) key = None
           ∨ map_get (openFlightsByName this) key = Some [])
          ∧ (4 ≤ length key)%nat
          ∧ ∃ k bucket,
              (k, bucket) ∈ openFlightsByName this
              ∧ partial_hit key k = true
              ∧ r ∈ bucket
              ∧ same_country (get yourAirport "country") r = Ok true
      | iata =>
          (map_get (openFlightsByName this) key = None
           ∨ map_get (openFlightsByName this) key = Some [])
          ∧ findPartialNameMatch this key (get yourAirport "country")
            = Ok None
          ∧ ∃ code,
              get yourAirport "airportCode" = VStr code
              ∧ openFlightsByIATA this !! toUpperCase code = Some r
      end.
Proof.
  unfold findOpenFlightsMatch.
  destruct (normalizeName _) as [key|] eqn:Hkey; simpl; [|done].
  intros Hres. exists key. split; [done|].
  assert (map_get (openFlightsByName this) key = None
          ∨ map_get (openFlightsByName this) key = Some [] →
          (partialMatch ← findPartialNameMatch this key
                             (get yourAirport "country");
           match partialMatch with
           | Some a => Ok (Some (a, partialName))
           | None => iata_strategy this yourAirport
           end) = Ok (Some (r, t)) →
          match t with
          | exactNameCountry | exactName => False
          | partialName =>
              (4 ≤ length key)%nat
              ∧ ∃ k bucket,
                  (k, bucket) ∈ openFlightsByName this
                  ∧ partial_hit key k = true
                  ∧ r ∈ bucket
                  ∧ same_country (get yourAirport "country") r = Ok true
          | iata =>
              findPartialNameMatch this key (get yourAirport "country")
              = Ok None
              ∧ ∃ code,
                  get yourAirport "airportCode" = VStr code
                  ∧ openFlightsByIATA this !! toUpperCase code = Some r
          end) as Hlater.
  { intros _.
    destruct (findPartialNameMatch _ _ _) as [[a|]|] eqn:Hp; simpl; [| |done].
    - intros [= -> <-]. by apply findPartialNameMatch_inv.
    - unfold iata_strategy. destruct (truthy _); [|done].
      destruct (get yourAirport "airportCode") as [| | | |code| |];
        simpl; try done.
      destruct (_ !! _) as [a|] eqn:Hi; [|done].
      intros [= -> <-]. split; [done|]. by exists code. }
  destruct (map_get (openFlightsByName this) key) as [[|first rest]|] eqn:Hget.
  - specialize (Hlater (or_intror eq_refl) Hres).
    destruct t; try done; split; auto.
  - destruct (find_first _ _) as [[a|]|] eqn:Hfind; simpl in Hres; [| |done].
    + injection Hres as -> <-. exists (first :: rest).
      apply find_first_Some_inv in Hfind as [? ?]. by split_and!.
    + injection Hres as -> <-. exists rest.
      apply find_first_None_inv in Hfind. by split.
  - specialize (Hlater (or_introl eq_refl) Hres).
    destruct t; try done; split; auto.
Qed.

(** X5: a bucket of the candidate's name in which no record is of the
    candidate's country still gives a match: its first record, as
    [exactName], whatever country that record is in. *)
Theorem exact_name_falls_back_to_first
    (this : corrector) (yourAirport : obj) (key : jsstring)
    (first : obj) (rest : list obj) :
  normalizeName (or_else (get yourAirport "airportName") (VStr [])) = Ok key →
  map_get (openFlightsByName this) key = Some (first :: rest) →
  stringish (get yourAirport "country") →
  Forall (λ a, stringish (get a "country")) (first :: rest) →
  Forall (λ a, country_key (get a "country")
               ≠ country_key (get yourAirport "country")) (first :: rest) →
  findOpenFlightsMatch this yourAirport = Ok (Some (first, exactName)).
Proof.
  intros Hkey Hget Hc Hty Hno.
  unfold findOpenFlightsMatch. rewrite Hkey. simpl. rewrite Hget.
  rewrite find_first_none; [done|].
  rewrite Forall_forall in Hty, Hno. apply Forall_forall. intros a Ha.
  rewrite (same_country_stringish _ _ Hc (Hty a Ha)).
  by rewrite bool_decide_eq_false_2 by auto.
Qed.

(** X6: the strategy reported with a match tells how the record was
    found and that the earlier strategies found nothing: an exact match
    comes from the bucket of the candidate's normalized name (of the
    candidate's country for [exactNameCountry], the first record of a
    bucket without one for [exactName]); a partial match comes from a
    bucket that passes the overlap test, is of the candidate's country,
    and is only tried when that bucket is absent and the name has length
    at least 4; an IATA match is the entry of the upper-cased code, tried
    only after the partial strategy returned nothing. *)
Theorem match_strategy_sound (this : corrector) (yourAirport : obj) r t :
  findOpenFlightsMatch this yourAirport = Ok (Some (r, t)) →
  ∃ key,
    normalizeName (or_else (get yourAirport "airportName") (VStr [])) = Ok key
    ∧ match t with
      | exactNameCountry =>
          ∃ bucket,
            map_get (openFlightsByName this) key = Some bucket
            ∧ r ∈ bucket
            ∧ same_country (get yourAirport "country") r = Ok true
      | exactName =>
          ∃ rest,
            map_get (openFlightsByName this) key = Some (r :: rest)
            ∧ Forall (λ a, same_country (get yourAirport "country") a
                           = Ok false) (r :: rest)
      | partialName =>
          (map_get (openFlightsByName this) key = None
           ∨ map_get (openFlightsByName this) key = Some [])
          ∧ (4 ≤ length key)%nat
          ∧ ∃ k bucket,
              (k, bucket) ∈ openFlightsByName this
              ∧ partial_hit key k = true
              ∧ r ∈ bucket
              ∧ same_country (get yourAirport "country") r = Ok true
      | iata =>
          (map_get (openFlightsByName this) key = None
           ∨ map_get (openFlightsByName this) key = Some [])
          ∧ findPartialNameMatch this key (get yourAirport "country")
            = Ok None
          ∧ ∃ code,
              get yourAirport "airportCode" = VStr code
              ∧ openFlightsByIATA this !! toUpperCase code = Some r
      end.
Proof. apply findOpenFlightsMatch_inv. Qed.

(** X7: with maps built by [createLookupMaps] from empty ones, whatever
    the strategy, a match is a record of the reference set. *)
Theorem match_is_reference_record
    (this0 this : corrector) (yourAirport : obj) r t :
  Forall reference_indexable (openFlightsData this0) →
  openFlightsByName this0 = [] →
  openFlightsByIATA this0 = ∅ →
  createLookupMaps this0 = Ok this →
  findOpenFlightsMatch this yourAirport = Ok (Some (r, t)) →
  r ∈ openFlightsData this0.
Proof.
  intros Hdata Hn0 Hi0. unfold createLookupMaps.
  destruct (index_all_indexable (openFlightsByName this0)
              (openFlightsByIATA this0) _ Hdata)
    as (n' & i' & -> & Hn' & Hi' & Hnd). simpl. intros [= <-].
  rewrite Hn0 in Hn', Hnd. rewrite Hi0 in Hi'.
  assert (∀ k bucket, map_get n' k = Some bucket → r ∈ bucket →
                      r ∈ openFlightsData this0) as Hbucket.
  { intros k bucket Hget Hr. rewrite Hn' in Hget. simpl in Hget.
    destruct (filter _ _) as [|a added] eqn:Hf; [done|].
    simpl in Hget. injection Hget as <-. rewrite <- Hf in Hr.
    by apply list_elem_of_filter in Hr as [_ ?]. }
  intros (key & _ & Hcase)%findOpenFlightsMatch_inv. simpl in Hcase.
  destruct t.
  - destruct Hcase as (bucket & Hget & Hr & _). eauto.
  - destruct Hcase as (rest & Hget & _).
    eapply Hbucket; [done | left].
  - destruct Hcase as (_ & _ & k & bucket & Hin & _ & Hr & _).
    eapply Hbucket; [|done]. apply elem_of_map_get; [|done].
    apply Hnd. constructor.
  - destruct Hcase as (_ & _ & code & _ & Hlook).
    rewrite Hi', lookup_empty in Hlook.
    destruct (last _) as [a|] eqn:Hlast; [|done]. injection Hlook as ->.
    apply last_Some_elem_of in Hlast.
    by apply list_elem_of_filter in Hlast as [_ ?].
Qed.

End MatchSoundness.

(** ** The diff and the corrected record *)

Section ReconcilerFacts.
Context `{JsHost}.

Lemma push_if_differs_length label a b cs :
  stringish a → stringish b →
  ∃ cs', push_if_differs label a b cs = Ok cs'
         ∧ length cs' = (length cs + Nat.b2n (negb (strict_eq a b)))%nat.
Proof.
  intros Ha Hb. unfold push_if_differs.
  destruct (strict_eq a b); simpl.
  - exists cs. split; [done | lia].
  - destruct (correction_message_stringish label a b Ha Hb) as [msg ->].
    simpl. eexists. split; [done|]. rewrite length_app. simpl. lia.
Qed.

(** X8: the diff has one entry per comparison that fails, at most four;
    it is empty exactly when code, ICAO code and city are identical and
    the two names have the same normalized key, however the names are
    written. *)
Theorem needsCorrection_counts_differences
    (yourAirport openFlightsMatch : obj) (n1 n2 : jsstring) :
  candidate_typed yourAirport →
  reference_typed openFlightsMatch →
  get yourAirport "airportName" = VStr n1 →
  get openFlightsMatch "name" = VStr n2 →
  ∃ cs,
    needsCorrection yourAirport openFlightsMatch = Ok cs
    ∧ length cs
      = (Nat.b2n (negb (strict_eq (get yourAirport "airportCode")
                                  (get openFlightsMatch "iataCode")))
         + Nat.b2n (negb (strict_eq (get yourAirport "icaoCode")
                                    (get openFlightsMatch "icaoCode")))
         + Nat.b2n (negb (strict_eq (get yourAirport "city")
                                    (get openFlightsMatch "city")))
         + Nat.b2n (negb (bool_decide (normalizeName (VStr n1)
                                       = normalizeName (VStr n2)))))%nat
    ∧ (cs = [] ↔
       strict_eq (get yourAirport "airportCode")
                 (get openFlightsMatch "iataCode") = true
       ∧ strict_eq (get yourAirport "icaoCode")
                   (get openFlightsMatch "icaoCode") = true
       ∧ strict_eq (get yourAirport "city") (get openFlightsMatch "city")
         = true
       ∧ normalizeName (VStr n1) = normalizeName (VStr n2)).
Proof.
  intros (Ha1 & Ha2 & _ & Ha4 & _)%candidate_typed_fields
         (Hb1 & Hb2 & _ & Hb4 & _)%reference_typed_fields Hn1 Hn2.
  assert (∃ cs, needsCorrection yourAirport openFlightsMatch = Ok cs
    ∧ length cs
      = (Nat.b2n (negb (strict_eq (get yourAirport "airportCode")
                                  (get openFlightsMatch "iataCode")))
         + Nat.b2n (negb (strict_eq (get yourAirport "icaoCode")
                                    (get openFlightsMatch "icaoCode")))
         + Nat.b2n (negb (strict_eq (get yourAirport "city")
                                    (get openFlightsMatch "city")))
         + Nat.b2n (negb (bool_decide (normalizeName (VStr n1)
                                       = normalizeName (VStr n2)))))%nat)
    as (cs & Hcs & Hlen).
  { unfold needsCorrection.
    destruct (push_if_differs_length "IATA: " _ _ [] Ha1 Hb1)
      as (c1 & -> & H1). simpl.
    destruct (push_if_differs_length "ICAO: " _ _ c1 Ha2 Hb2)
      as (c2 & -> & H2). simpl.
    destruct (push_if_differs_length "City: " _ _ c2 Ha4 Hb4)
      as (c3 & -> & H3). simpl.
    rewrite Hn1, Hn2, !normalizeName_string. simpl in *.
    match goal with
    | |- context [bool_decide (Ok ?k1 = Ok ?k2)] =>
        rewrite (bool_decide_ext (Ok k1 = Ok k2) (k1 = k2))
          by (split; congruence)
    end.
    case_bool_decide as Hk; simpl.
    - exists c3. split; [done | lia].
    - eexists. split; [done|]. rewrite length_app. simpl. lia. }
  exists cs. split_and!; [done..|].
  rewrite <- length_zero_iff_nil, Hlen.
  destruct (strict_eq (get yourAirport "airportCode") _),
           (strict_eq (get yourAirport "icaoCode") _),
           (strict_eq (get yourAirport "city") _);
    case_bool_decide; simpl; split; try lia; try done; by intros (? & ? & ? & ?).
Qed.

(** X9: when nothing differs, the record returned is the candidate with
    [correctionStatus] and [matchType] written on it: it keeps its own
    code, ICAO code, name, city and country, and no correction is
    counted. *)
Theorem correctAirport_nothing_to_correct
    (this : corrector) (yourAirport openFlightsMatch : obj)
    (matchType : value) (n1 n2 : jsstring) :
  candidate_typed yourAirport →
  reference_typed openFlightsMatch →
  get yourAirport "airportName" = VStr n1 →
  get openFlightsMatch "name" = VStr n2 →
  strict_eq (get yourAirport "airportCode")
            (get openFlightsMatch "iataCode") = true →
  strict_eq (get yourAirport "icaoCode")
            (get openFlightsMatch "icaoCode") = true →
  strict_eq (get yourAirport "city") (get openFlightsMatch "city") = true →
  normalizeName (VStr n1) = normalizeName (VStr n2) →
  ∃ out,
    correctAirport this yourAirport openFlightsMatch matchType
    = Ok (out, this)
    ∧ get out "correctionStatus" = VStr (lit "no_correction_needed")
    ∧ get out "matchType" = matchType
    ∧ ∀ k, k ≠ "correctionStatus" → k ≠ "matchType" →
           out !! k = yourAirport !! k.
Proof.
  intros (Ha1 & Ha2 & _ & Ha4 & _)%candidate_typed_fields
         (Hb1 & Hb2 & _ & Hb4 & _)%reference_typed_fields Hn1 Hn2
         E1 E2 E3 E4.
  assert (needsCorrection yourAirport openFlightsMatch = Ok []) as Hcs.
  { unfold needsCorrection, push_if_differs. rewrite E1, E2, E3. simpl.
    rewrite Hn1, Hn2, E4.
    destruct (normalizeName (VStr n2)) as [k|]; simpl.
    - by rewrite bool_decide_eq_true_2.
    - by rewrite normalizeName_string in E4. }
  unfold correctAirport. rewrite Hcs. simpl.
  eexists. split; [done|]. unfold with_props. cbn [foldl fst snd].
  split_and!.
  - rewrite get_insert_ne by done. apply get_insert_eq.
  - apply get_insert_eq.
  - intros k Hk1 Hk2. by rewrite !lookup_insert_ne.
Qed.

(** X10: a corrected record carries its own audit trail: the diff under
    [corrections] and the five values the candidate had under
    [originalData]; exactly one correction is counted, and every other
    counter, the output list and the maps are left as they were. *)
Theorem correctAirport_audit_trail
    (this : corrector) (yourAirport openFlightsMatch : obj)
    (matchType : value) (corrections : list jsstring) :
  needsCorrection yourAirport openFlightsMatch = Ok corrections →
  corrections ≠ [] →
  ∃ updated this' original,
    correctAirport this yourAirport openFlightsMatch matchType
    = Ok (updated, this')
    ∧ get updated "corrections" = VArr (VStr <$> corrections)
    ∧ get updated "originalData" = VObj original
    ∧ Forall (λ k, get original k = get yourAirport k)
        ["airportCode"; "icaoCode"; "airportName"; "city"; "country"]
    ∧ corrected (the_stats this') = S (corrected (the_stats this))
    ∧ total (the_stats this') = total (the_stats this)
    ∧ exactNameMatch (the_stats this') = exactNameMatch (the_stats this)
    ∧ partialNameMatch (the_stats this') = partialNameMatch (the_stats this)
    ∧ iataMatch (the_stats this') = iataMatch (the_stats this)
    ∧ noMatch (the_stats this') = noMatch (the_stats this)
    ∧ correctedAirports this' = correctedAirports this
    ∧ openFlightsData this' = openFlightsData this
    ∧ openFlightsByName this' = openFlightsByName this
    ∧ openFlightsByIATA this' = openFlightsByIATA this.
Proof.
  intros Hcs Hne. unfold correctAirport. rewrite Hcs. simpl.
  destruct corrections as [|c cs]; [done|]. simpl.
  do 3 eexists. split; [reflexivity|].
  unfold with_props. cbn [foldl fst snd].
  split_and!; try done.
  - repeat (rewrite get_insert_ne by done). apply get_insert_eq.
  - repeat (rewrite get_insert_ne by done). apply get_insert_eq.
  - repeat (constructor;
            [repeat (rewrite get_insert_ne by done); apply get_insert_eq|]).
    constructor.
Qed.

End ReconcilerFacts.

(** ** The run over the candidates *)

(** Reduce the binds whose first computation is known. *)
Ltac bind_step := cbv beta iota delta [mbind result_bind].

Section RunFacts.
Context `{JsHost}.

Lemma settled_incr_matched t s : settled (incr_matched t s) = S (settled s).
Proof. destruct t; unfold settled; simpl; lia. Qed.

Lemma with_props_get_ne (o : obj) props k :
  k ∉ props.*1 → get (with_props o props) k = get o k.
Proof. intros Hk. unfold get. by rewrite with_props_lookup_ne. Qed.

Lemma status_strings :
  strict_eq (VStr (lit "corrected")) (VStr (lit "corrected")) = true
  ∧ strict_eq (VStr (lit "corrected")) (VStr (lit "no_match")) = false
  ∧ strict_eq (VStr (lit "no_correction_needed")) (VStr (lit "corrected"))
    = false
  ∧ strict_eq (VStr (lit "no_correction_needed")) (VStr (lit "no_match"))
    = false
  ∧ strict_eq (VStr (lit "no_match")) (VStr (lit "corrected")) = false
  ∧ strict_eq (VStr (lit "no_match")) (VStr (lit "no_match")) = true.
Proof. by vm_compute. Qed.

(** What [correctAirport] returns, read for the run. *)
Lemma correctAirport_outcome (this this' : corrector)
    (yourAirport openFlightsMatch out : obj) (matchType : value) :
  correctAirport this yourAirport openFlightsMatch matchType
  = Ok (out, this') →
  (∀ k, k ∉ written_keys → out !! k = yourAirport !! k)
  ∧ get out "unverified" = get yourAirport "unverified"
  ∧ ((get out "correctionStatus" = VStr (lit "corrected")
      ∧ this' = update_stats incr_corrected this)
     ∨ (get out "correctionStatus" = VStr (lit "no_correction_needed")
        ∧ this' = this)).
Proof.
  unfold correctAirport.
  destruct (needsCorrection _ _) as [cs|] eqn:Hcs; simpl; [|done].
  assert (∀ props : list (string * value),
            props.*1 ⊆ written_keys →
            (∀ k, k ∉ written_keys →
                  with_props yourAirport props !! k = yourAirport !! k)
            ∧ get (with_props yourAirport props) "unverified"
              = get yourAirport "unverified") as Hframe.
  { intros props Hsub. split.
    - intros k Hk. apply with_props_lookup_ne. intros Hin. by apply Hk, Hsub.
    - apply with_props_get_ne. intros Hin%Hsub. revert Hin.
      unfold written_keys. rewrite !elem_of_cons, elem_of_nil.
      intros Hin. repeat destruct Hin as [Hin | Hin]; done. }
  destruct (length cs =? 0)%nat; intros [= <- <-].
  - destruct (Hframe [("correctionStatus", VStr (lit "no_correction_needed"));
                      ("matchType", matchType)]) as [Hf Hu].
    { intros k. simpl. unfold written_keys. rewrite !elem_of_cons. tauto. }
    split_and!; [done..|]. right. split; [|done].
    unfold with_props. cbn [foldl fst snd].
    rewrite get_insert_ne by done. apply get_insert_eq.
  - match goal with
    | |- context [with_props yourAirport ?props] =>
        destruct (Hframe props) as [Hf Hu]
    end.
    { intros k. simpl. unfold written_keys. rewrite !elem_of_cons. tauto. }
    split_and!; [done..|]. left. split; [|done].
    unfold with_props. cbn [foldl fst snd].
    repeat (rewrite get_insert_ne by done). apply get_insert_eq.
Qed.

(** One turn of the loop, when it does not raise. *)
Lemma process_airport_inv (this this' : corrector) (yourAirport : obj) :
  process_airport this yourAirport = Ok this' →
  ∃ out,
    correctedAirports this' = correctedAirports this ++ [out]
    ∧ openFlightsData this' = openFlightsData this
    ∧ openFlightsByName this' = openFlightsByName this
    ∧ openFlightsByIATA this' = openFlightsByIATA this
    ∧ record_outcome yourAirport out
    ∧ total (the_stats this') = total (the_stats this)
    ∧ settled (the_stats this') = S (settled (the_stats this))
    ∧ corrected (the_stats this')
      = (corrected (the_stats this)
         + Nat.b2n (strict_eq (get out "correctionStatus")
                              (VStr (lit "corrected"))))%nat
    ∧ noMatch (the_stats this')
      = (noMatch (the_stats this)
         + Nat.b2n (strict_eq (get out "correctionStatus")
                              (VStr (lit "no_match"))))%nat.
Proof.
  unfold process_airport.
  destruct (console_log [get yourAirport "airportCode"; _]) as [[]|];
    [|done]; bind_step.
  destruct (console_log [get yourAirport "city"; _]) as [[]|];
    [|done]; bind_step.
  destruct (findOpenFlightsMatch this yourAirport) as [[[m t]|]|];
    [| |done]; bind_step.
  - destruct (console_log [get m "iataCode"; _; _]) as [[]|];
      [|done]; bind_step.
    destruct (console_log [get m "city"; _]) as [[]|]; [|done]; bind_step.
    destruct (correctAirport _ _ _ _) as [[out this1]|] eqn:Hc; [|done];
      bind_step.
    intros [= <-]. exists out.
    apply correctAirport_outcome in Hc as (Hframe & Hunv & Hcase).
    assert (∀ k, k ∉ output_keys → out !! k = yourAirport !! k) as Hframe'.
    { intros k Hk. apply Hframe. intros Hin. apply Hk. by right. }
    destruct (status_strings) as (Ecc & Ecm & Enc & Enm & Emc & Emm).
    destruct Hcase as [[Hst ->] | [Hst ->]]; simpl;
      rewrite ?settled_incr_matched, Hst, ?Ecc, ?Ecm, ?Enc, ?Enm.
    + split_and!; try done.
      * split; [done|]. by left.
      * by destruct t.
      * destruct t; simpl; lia.
      * destruct t; simpl; lia.
    + split_and!; try done.
      * split; [done|]. right. by left.
      * by destruct t.
      * destruct t; simpl; lia.
      * destruct t; simpl; lia.
  - intros [= <-]. exists (unverified_record yourAirport). simpl.
    destruct (status_strings) as (Ecc & Ecm & Enc & Enm & Emc & Emm).
    assert (get (unverified_record yourAirport) "correctionStatus"
            = VStr (lit "no_match")) as Hst.
    { unfold unverified_record, with_props. cbn [foldl fst snd].
      rewrite get_insert_ne by done. apply get_insert_eq. }
    rewrite Hst, Emc, Emm. split_and!; try done.
    + split.
      * intros k Hk. apply with_props_lookup_ne. intros Hin. apply Hk.
        revert Hin. unfold output_keys, written_keys. simpl.
        rewrite !elem_of_cons. tauto.
      * right. right. split_and!; [done | |];
          unfold unverified_record, with_props; cbn [foldl fst snd].
        -- repeat (rewrite get_insert_ne by done). apply get_insert_eq.
        -- apply get_insert_eq.
    + unfold settled. simpl. lia.
    + simpl. lia.
Qed.

(** The whole loop, when it does not raise. *)
Lemma processAirports_inv (this this' : corrector) (yourAirports : list obj) :
  processAirports this yourAirports = Ok this' →
  ∃ outs,
    correctedAirports this' = correctedAirports this ++ outs
    ∧ openFlightsData this' = openFlightsData this
    ∧ openFlightsByName this' = openFlightsByName this
    ∧ openFlightsByIATA this' = openFlightsByIATA this
    ∧ Forall2 record_outcome yourAirports outs
    ∧ total (the_stats this') = total (the_stats this)
    ∧ settled (the_stats this')
      = (settled (the_stats this) + length yourAirports)%nat
    ∧ corrected (the_stats this')
      = (corrected (the_stats this)
         + length (filter (λ a, strict_eq (get a "correctionStatus")
                                  (VStr (lit "corrected")) = true) outs))%nat
    ∧ noMatch (the_stats this')
      = (noMatch (the_stats this)
         + length (filter (λ a, strict_eq (get a "correctionStatus")
                                  (VStr (lit "no_match")) = true) outs))%nat.
Proof.
  revert this. induction yourAirports as [|a rest IH]; intros this.
  - intros [= <-]. exists []. rewrite app_nil_r. simpl.
    split_and!; first [done | lia | constructor].
  - cbn [processAirports].
    destruct (process_airport this a) as [this1|] eqn:Hstep; [|done].
    intros Hrest. change (processAirports this1 rest = Ok this') in Hrest.
    apply process_airport_inv in Hstep
      as (out & Hout & Hd & Hn & Hi & Hrec & Ht & Hs & Hc & Hm).
    apply IH in Hrest
      as (outs & Houts & Hd' & Hn' & Hi' & Hrecs & Ht' & Hs' & Hc' & Hm').
    exists (out :: outs).
    rewrite Houts, Hout, Hd', Hd, Hn', Hn, Hi', Hi, Ht', Ht, Hs', Hs,
      Hc', Hc, Hm', Hm.
    split_and!; try done.
    + by rewrite <- app_assoc.
    + by constructor.
    + simpl. lia.
    + destruct (strict_eq (get out "correctionStatus") (VStr (lit "corrected")))
        eqn:E.
      * rewrite filter_cons_True by done. simpl. lia.
      * rewrite filter_cons_False by (by rewrite E). simpl. lia.
    + destruct (strict_eq (get out "correctionStatus") (VStr (lit "no_match")))
        eqn:E.
      * rewrite filter_cons_True by done. simpl. lia.
      * rewrite filter_cons_False by (by rewrite E). simpl. lia.
Qed.

(** X11: a run that ends pushes one record per candidate, in the order
    of the candidates, each equal to its candidate outside the properties
    the script writes; the reference data and both lookup maps are left
    as they were. *)
Theorem processAirports_one_record_each
    (this this' : corrector) (yourAirports : list obj) :
  processAirports this yourAirports = Ok this' →
  ∃ outs,
    correctedAirports this' = correctedAirports this ++ outs
    ∧ Forall2 (λ a out, ∀ k, k ∉ output_keys → out !! k = a !! k)
        yourAirports outs
    ∧ openFlightsData this' = openFlightsData this
    ∧ openFlightsByName this' = openFlightsByName this
    ∧ openFlightsByIATA this' = openFlightsByIATA this.
Proof.
  intros (outs & Houts & Hd & Hn & Hi & Hrecs & _)%processAirports_inv.
  exists outs. split_and!; try done.
  eapply Forall2_impl; [exact Hrecs|]. by intros a out [? _].
Qed.

(** X12: every candidate of a run that ends is counted once among the
    exact, partial, IATA and no-match counters; [total] is not touched,
    and no more corrections are counted than candidates were matched. *)
Theorem processAirports_counts_each_once
    (this this' : corrector) (yourAirports : list obj) :
  processAirports this yourAirports = Ok this' →
  settled (the_stats this')
  = (settled (the_stats this) + length yourAirports)%nat
  ∧ total (the_stats this') = total (the_stats this)
  ∧ (corrected (the_stats this') + noMatch (the_stats this')
     ≤ corrected (the_stats this) + noMatch (the_stats this)
       + length yourAirports)%nat.
Proof.
  intros (outs & _ & _ & _ & _ & Hrecs & Ht & Hs & Hc & Hm)%processAirports_inv.
  split_and!; [done..|]. rewrite Hc, Hm.
  apply Forall2_length in Hrecs. rewrite Hrecs.
  assert (length (filter (λ a, strict_eq (get a "correctionStatus")
                                 (VStr (lit "corrected")) = true) outs)
          + length (filter (λ a, strict_eq (get a "correctionStatus")
                                   (VStr (lit "no_match")) = true) outs)
          ≤ length outs)%nat; [|lia].
  clear. induction outs as [|out outs IH]; [done|].
  destruct (get out "correctionStatus") as [| | | |s| |] eqn:E;
    try (rewrite !filter_cons_False by (by rewrite E); simpl; lia).
  destruct (decide (s = lit "corrected")) as [-> | Hne].
  - rewrite filter_cons_True by (by rewrite E).
    rewrite (filter_cons_False _ out) by (by rewrite E). simpl. lia.
  - rewrite filter_cons_False
      by (rewrite E; simpl; by rewrite bool_decide_eq_false_2).
    destruct (decide (s = lit "no_match")) as [-> | Hne'].
    + rewrite filter_cons_True by (by rewrite E). simpl. lia.
    + rewrite filter_cons_False
        by (rewrite E; simpl; by rewrite bool_decide_eq_false_2).
      simpl. lia.
Qed.

(** X13: the [correctionsMade] of the summary agrees with the counter:
    if the records whose status is "corrected" are as many as
    [stats.corrected] before a run, they are after it. *)
Theorem processAirports_keeps_corrections_count
    (this this' : corrector) (yourAirports : list obj) :
  processAirports this yourAirports = Ok this' →
  length (correctionsOnly this) = corrected (the_stats this) →
  length (correctionsOnly this') = corrected (the_stats this').
Proof.
  intros (outs & Houts & _ & _ & _ & _ & _ & _ & Hc & _)%processAirports_inv
         Hbefore.
  unfold correctionsOnly in *.
  by rewrite Houts, filter_app, length_app, Hbefore, Hc.
Qed.

(** X14: the [unverifiedCount] of the summary agrees with the counter,
    provided no candidate comes with [unverified: true] of its own: a
    matched record keeps whatever [unverified] its candidate had. *)
Theorem processAirports_keeps_unverified_count
    (this this' : corrector) (yourAirports : list obj) :
  processAirports this yourAirports = Ok this' →
  Forall (λ a, strict_eq (get a "unverified") (VBool true) = false)
    yourAirports →
  length (unverifiedAirports this) = noMatch (the_stats this) →
  length (unverifiedAirports this') = noMatch (the_stats this').
Proof.
  intros (outs & Houts & _ & _ & _ & Hrecs & _ & _ & _ & Hm)%processAirports_inv
         Hclean Hbefore.
  unfold unverifiedAirports in *.
  rewrite Houts, filter_app, length_app, Hbefore, Hm. f_equal.
  clear Houts Hm Hbefore.
  induction Hrecs as [|a out rest outs [_ Hcase] _ IH]; [done|].
  apply Forall_cons in Hclean as [Ha Hclean]. specialize (IH Hclean).
  destruct Hcase as [[Hst Hu] | [[Hst Hu] | (Hst & Hu & _)]].
  - rewrite !filter_cons_False; [done | by rewrite Hst | by rewrite Hu, Ha].
  - rewrite !filter_cons_False; [done | by rewrite Hst | by rewrite Hu, Ha].
  - rewrite !filter_cons_True; [simpl; by rewrite IH | by rewrite Hst
                                | by rewrite Hu].
Qed.

(** X15: every record a run pushes has one of the three statuses, and
    [unverified: true] with match type "none" is what the script writes
    on those without a match. *)
Theorem processAirports_statuses
    (this this' : corrector) (yourAirports : list obj) :
  processAirports this yourAirports = Ok this' →
  ∃ outs,
    correctedAirports this' = correctedAirports this ++ outs
    ∧ Forall (λ out,
        get out "correctionStatus" = VStr (lit "corrected")
        ∨ get out "correctionStatus" = VStr (lit "no_correction_needed")
        ∨ (get out "correctionStatus" = VStr (lit "no_match")
           ∧ get out "unverified" = VBool true
           ∧ get out "matchType" = VStr (lit "none"))) outs.
Proof.
  intros (outs & Houts & _ & _ & _ & Hrecs & _)%processAirports_inv.
  exists outs. split; [done|].
  clear Houts.
  induction Hrecs as [|a out rest outs [_ Hcase] _ IH]; [constructor|].
  constructor; [|done].
  destruct Hcase as [[? _] | [[? _] | ?]]; auto.
Qed.

End RunFacts.

(** ** More of the matcher and of the run *)

Section MoreFacts.
Context `{JsHost}.

(** X16: the run over a list of candidates followed by another is the
    run over the first continued by the run over the second; so an error
    on one candidate ends the run, whatever follows. *)
Theorem processAirports_app (this : corrector) (xs ys : list obj) :
  processAirports this (xs ++ ys)
  = (this ← processAirports this xs; processAirports this ys).
Proof.
  revert this. induction xs as [|x xs IH]; intros this; [done|].
  cbn [processAirports app].
  destruct (process_airport this x) as [this1|e]; [|done].
  exact (IH this1).
Qed.

Lemma normalizeCountry_absent v :
  v = VNull ∨ v = VUndefined ∨ v = VStr [] →
  normalizeCountry v = normalizeCountry (VStr []).
Proof. intros [-> | [-> | ->]]; reflexivity. Qed.

(** X17: two missing countries count as the same country: a candidate
    without a country whose name has a bucket starting with a record
    without a country is matched to it as [exactNameCountry]. *)
Theorem missing_countries_match
    (this : corrector) (yourAirport : obj) (key : jsstring)
    (first : obj) (rest : list obj) :
  normalizeName (or_else (get yourAirport "airportName") (VStr [])) = Ok key →
  map_get (openFlightsByName this) key = Some (first :: rest) →
  get yourAirport "country" = VNull ∨ get yourAirport "country" = VUndefined
  ∨ get yourAirport "country" = VStr [] →
  get first "country" = VNull ∨ get first "country" = VUndefined
  ∨ get first "country" = VStr [] →
  findOpenFlightsMatch this yourAirport = Ok (Some (first, exactNameCountry)).
Proof.
  intros Hkey Hget Hc Hf.
  unfold findOpenFlightsMatch. rewrite Hkey. simpl. rewrite Hget.
  cbn [find_first]. unfold same_country.
  rewrite (normalizeCountry_absent _ Hc), (normalizeCountry_absent _ Hf).
  rewrite normalizeCountry_string. simpl.
  by rewrite bool_decide_eq_true_2.
Qed.

Lemma starts_with_refl s : starts_with s s = true.
Proof. induction s as [|c s IH]; simpl; [done|]. by rewrite N.eqb_refl. Qed.

Lemma includes_refl s : includes s s = true.
Proof. destruct s; simpl; [done|]. by rewrite N.eqb_refl, starts_with_refl. Qed.

(** X18: for a name with one or two significant words, one word shared
    with a key of the index is enough to pass the overlap test. *)
Theorem one_shared_word_is_a_hit (normalizedName openFlightsName w : jsstring) :
  w ∈ significant_words normalizedName →
  w ∈ significant_words openFlightsName →
  (length (significant_words normalizedName) ≤ 2)%nat →
  partial_hit normalizedName openFlightsName = true.
Proof.
  intros Hw Hk Hlen. unfold partial_hit.
  assert (w ∈ common_words (significant_words normalizedName)
                           (significant_words openFlightsName)) as Hcommon.
  { unfold common_words. apply list_elem_of_filter. split; [|done].
    apply existsb_exists. exists w. split; [by apply list_elem_of_In|].
    by rewrite includes_refl. }
  apply Nat.leb_le. transitivity 1%nat.
  - unfold threshold.
    destruct (length (significant_words normalizedName)) as [|[|[|n]]];
      simpl; lia.
  - destruct (common_words _ _); [by apply elem_of_nil in Hcommon|].
    simpl. lia.
Qed.

End MoreFacts.

(** ** Runs that do not raise *)

Section SafetyFacts.
Context `{JsHost}.

Lemma find_first_total {A} (p : A → result bool) xs :
  Forall (λ a, ∃ b, p a = Ok b) xs → ∃ r, find_first p xs = Ok r.
Proof.
  induction 1 as [|a xs [b Hb] _ [r IH]]; simpl; [eauto|].
  rewrite Hb. destruct b; simpl; eauto.
Qed.

Lemma find_country_total country (bucket : list obj) :
  stringish country →
  Forall (λ a, stringish (get a "country")) bucket →
  ∃ r, find_first (same_country country) bucket = Ok r.
Proof.
  intros Hc Hb. apply find_first_total.
  eapply Forall_impl; [exact Hb|]. intros a Ha.
  rewrite (same_country_stringish _ _ Hc Ha). eauto.
Qed.

Lemma partial_scan_total words country (entries : name_index) :
  stringish country → index_typed entries →
  ∃ r, partial_scan words country entries = Ok r.
Proof.
  intros Hc. induction 1 as [|[k b] entries Hb _ [r IH]]; simpl; [eauto|].
  destruct (_ <=? _)%nat; [|eauto].
  destruct (find_country_total country b Hc Hb) as [[a|] ->]; simpl; eauto.
Qed.

(** The three strategies on well-typed data. *)
Lemma findOpenFlightsMatch_total (this : corrector) (yourAirport : obj) :
  candidate_typed yourAirport →
  index_typed (openFlightsByName this) →
  ∃ res, findOpenFlightsMatch this yourAirport = Ok res.
Proof.
  intros (Ha1 & _ & Ha3 & _ & Ha5)%candidate_typed_fields Hty.
  unfold findOpenFlightsMatch.
  assert (∃ key, normalizeName (or_else (get yourAirport "airportName")
                                        (VStr [])) = Ok key) as [key ->].
  { unfold or_else.
    destruct (get yourAirport "airportName") as [| | | |s| |]; try done;
      simpl; eauto. destruct (negb _); simpl; eauto. }
  simpl.
  assert (∃ res,
    (partialMatch ← findPartialNameMatch this key (get yourAirport "country");
     match partialMatch with
     | Some a => Ok (Some (a, partialName))
     | None => iata_strategy this yourAirport
     end) = Ok res) as Hlater.
  { assert (∃ r, findPartialNameMatch this key (get yourAirport "country")
                 = Ok r) as [[a|] ->].
    { unfold findPartialNameMatch.
      destruct (_ <? _)%nat; [eauto|]. destruct (_ =? _)%nat; [eauto|].
      by apply partial_scan_total. }
    - simpl. eauto.
    - simpl. unfold iata_strategy.
      destruct (get yourAirport "airportCode") as [| | | |s| |]; try done;
        simpl; eauto.
      destruct (negb _); simpl; [|eauto]. destruct (_ !! _); eauto. }
  destruct (map_get (openFlightsByName this) key) as [[|first rest]|] eqn:Hget;
    [done | | done].
  apply map_get_elem_of in Hget.
  unfold index_typed in Hty. rewrite Forall_forall in Hty.
  specialize (Hty _ Hget). simpl in Hty.
  destruct (find_country_total _ _ Ha5 Hty) as [[a|] ->]; simpl; eauto.
Qed.

(** X19: on well-typed data the matcher does not raise: for a candidate
    whose name, code and country are strings, [null] or missing and a name
    index whose records all have such a country, [findOpenFlightsMatch]
    returns a match or [null]. *)
Theorem findOpenFlightsMatch_returns (this : corrector) (yourAirport : obj) :
  candidate_typed yourAirport →
  index_typed (openFlightsByName this) →
  ∃ res, findOpenFlightsMatch this yourAirport = Ok res.
Proof. apply findOpenFlightsMatch_total. Qed.

Lemma maps_ready_index_typed (this : corrector) :
  maps_ready this → index_typed (openFlightsByName this).
Proof.
  intros [Hn _]. apply Forall_forall. intros [k b] Hin. simpl.
  apply Forall_forall. intros m Hm.
  destruct (Hn k b m Hin Hm) as [Hty _].
  by apply reference_typed_fields in Hty as (_ & _ & _ & _ & ?).
Qed.

(** One turn of the loop on ready data. *)
Lemma process_airport_ready (this : corrector) (yourAirport : obj) :
  maps_ready this → candidate_ready yourAirport →
  ∃ this', process_airport this yourAirport = Ok this'.
Proof.
  intros Hmaps [Hc [n1 Hn1]].
  pose proof (candidate_typed_fields _ Hc) as (Ha1 & Ha2 & Ha3 & Ha4 & Ha5).
  unfold process_airport.
  rewrite !console_log_stringish by (repeat constructor; done).
  bind_step.
  destruct (findOpenFlightsMatch_total this yourAirport Hc
              (maps_ready_index_typed this Hmaps)) as [res Hres].
  rewrite Hres. bind_step. destruct res as [[m t]|]; [|eauto].
  assert (reference_ready m) as [Hr [n2 Hn2]].
  { destruct Hmaps as [Hbn Hbi].
    apply findOpenFlightsMatch_inv in Hres as (key & _ & Hcase).
    destruct t.
    - destruct Hcase as (b & Hget%map_get_elem_of & Hm & _). eauto.
    - destruct Hcase as (rest & Hget%map_get_elem_of & _).
      eapply Hbn; [done | left].
    - destruct Hcase as (_ & _ & k & b & Hin & _ & Hm & _). eauto.
    - destruct Hcase as (_ & _ & code & _ & Hlook). eauto. }
  pose proof (reference_typed_fields _ Hr) as (Hb1 & Hb2 & Hb3 & Hb4 & Hb5).
  rewrite !console_log_stringish by (repeat constructor; done).
  bind_step.
  destruct (needsCorrection_returns _ _ _ _ Hc Hr Hn1 Hn2) as [cs Hcs].
  unfold correctAirport. rewrite Hcs. bind_step.
  destruct (_ =? _)%nat; eauto.
Qed.

(** X20: when the names are there a run does not raise: if every record
    the lookup maps hold and every candidate has its compared fields well
    typed and a string for a name, [processAirports] ends. *)
Theorem processAirports_ends (this : corrector) (yourAirports : list obj) :
  maps_ready this →
  Forall candidate_ready yourAirports →
  ∃ this', processAirports this yourAirports = Ok this'.
Proof.
  intros Hmaps Hall. revert this Hmaps.
  induction Hall as [|a rest Ha _ IH]; intros this Hmaps; [by exists this|].
  cbn [processAirports].
  destruct (process_airport_ready this a Hmaps Ha) as [this1 Hstep].
  rewrite Hstep. bind_step. apply IH.
  apply process_airport_inv in Hstep as (_ & _ & _ & Hn & Hi & _).
  unfold maps_ready. by rewrite Hn, Hi.
Qed.

Lemma maps_ready_intro (this : corrector) :
  Forall (λ e, Forall reference_ready e.2) (openFlightsByName this) →
  map_Forall (λ _ m, reference_ready m) (openFlightsByIATA this) →
  maps_ready this.
Proof.
  intros Hn Hi. split.
  - intros k b m Hin Hm. rewrite Forall_forall in Hn.
    specialize (Hn _ Hin). rewrite Forall_forall in Hn. by apply Hn.
  - intros c m Hlook. by apply (Hi c m).
Qed.

End SafetyFacts.

(** ** The further theorems at work on the examples *)

Section MoreExamples.
#[local] Existing Instance latin1_host.

Ltac indexable :=
  repeat (constructor; [split; vm_compute; exact I|]); constructor.

Ltac typed :=
  repeat (constructor; [vm_compute; exact I|]); constructor.

Lemma createLookupMaps_name_buckets_witness :
  ∃ this',
    createLookupMaps (fresh [ref_la_chile; ref_lax; ref_other]) = Ok this'
    ∧ ∀ k, map_get (openFlightsByName this') k
           = extend_bucket
               (map_get
                  (openFlightsByName (fresh [ref_la_chile; ref_lax; ref_other]))
                  k)
               (filter (λ a, indexed_name a = Some k)
                  (openFlightsData (fresh [ref_la_chile; ref_lax; ref_other]))).
Proof.
  apply (createLookupMaps_name_buckets (fresh [ref_la_chile; ref_lax; ref_other])).
  indexable.
Defined.

Lemma createLookupMaps_iata_last_wins_witness :
  ∃ this',
    createLookupMaps (fresh [ref_la_chile; ref_lax; ref_other]) = Ok this'
    ∧ ∀ c, openFlightsByIATA this' !! c
           = match last (filter (λ a, indexed_code a = Some c)
                           (openFlightsData
                              (fresh [ref_la_chile; ref_lax; ref_other]))) with
             | Some a => Some a
             | None =>
                 openFlightsByIATA (fresh [ref_la_chile; ref_lax; ref_other])
                 !! c
             end.
Proof.
  apply (createLookupMaps_iata_last_wins
           (fresh [ref_la_chile; ref_lax; ref_other])).
  indexable.
Defined.

Lemma createLookupMaps_index_well_formed_witness :
  NoDup (openFlightsByName corrector_la).*1
  ∧ ∀ k bucket, (k, bucket) ∈ openFlightsByName corrector_la →
      bucket ≠ []
      ∧ bucket = filter (λ a, indexed_name a = Some k)
                   (openFlightsData (fresh [ref_la_chile; ref_lax; ref_other])).
Proof.
  apply (createLookupMaps_index_well_formed
           (fresh [ref_la_chile; ref_lax; ref_other]) corrector_la).
  - indexable.
  - reflexivity.
  - by_evaluation.
Defined.

Lemma createLookupMaps_aborts_on_non_string_witness :
  createLookupMaps (fresh [ref_lax; ref_numeric_name; ref_other])
  = Throw TypeError.
Proof.
  apply (createLookupMaps_aborts_on_non_string
           (fresh [ref_lax; ref_numeric_name; ref_other]) ref_numeric_name).
  - apply list_elem_of_further, list_elem_of_here.
  - left. split; [by_evaluation|]. intros s. vm_compute. discriminate.
Defined.

Lemma exact_name_falls_back_to_first_witness :
  findOpenFlightsMatch corrector_la cand_la_peru
  = Ok (Some (ref_la_chile, exactName)).
Proof.
  apply (exact_name_falls_back_to_first corrector_la cand_la_peru
           (lit "los angeles") ref_la_chile [ref_lax]).
  - by_evaluation.
  - by_evaluation.
  - vm_compute. exact I.
  - typed.
  - repeat (constructor; [vm_compute; discriminate|]). constructor.
Defined.

Lemma match_strategy_sound_witness :
  ∃ key,
    normalizeName (or_else (get cand_heathrow "airportName") (VStr [])) = Ok key
    ∧ ((map_get (openFlightsByName corrector_london) key = None
        ∨ map_get (openFlightsByName corrector_london) key = Some [])
       ∧ (4 ≤ length key)%nat
       ∧ ∃ k bucket,
           (k, bucket) ∈ openFlightsByName corrector_london
           ∧ partial_hit key k = true
           ∧ ref_lhr ∈ bucket
           ∧ same_country (get cand_heathrow "country") ref_lhr = Ok true).
Proof.
  apply (match_strategy_sound corrector_london cand_heathrow ref_lhr
           partialName).
  by_evaluation.
Defined.

Lemma match_is_reference_record_witness :
  ref_lax ∈ openFlightsData (fresh [ref_la_chile; ref_lax; ref_other]).
Proof.
  apply (match_is_reference_record
           (fresh [ref_la_chile; ref_lax; ref_other]) corrector_la cand_lax
           ref_lax exactNameCountry).
  - indexable.
  - reflexivity.
  - reflexivity.
  - by_evaluation.
  - by_evaluation.
Defined.

Lemma needsCorrection_counts_differences_witness :
  ∃ cs,
    needsCorrection cand_lax ref_lax = Ok cs
    ∧ length cs
      = (Nat.b2n (negb (strict_eq (get cand_lax "airportCode")
                                  (get ref_lax "iataCode")))
         + Nat.b2n (negb (strict_eq (get cand_lax "icaoCode")
                                    (get ref_lax "icaoCode")))
         + Nat.b2n (negb (strict_eq (get cand_lax "city")
                                    (get ref_lax "city")))
         + Nat.b2n (negb (bool_decide
              (normalizeName (VStr (lit "Los Angeles International Airport"))
               = normalizeName
                   (VStr (lit "Los Angeles International Airport"))))))%nat
    ∧ (cs = [] ↔
       strict_eq (get cand_lax "airportCode") (get ref_lax "iataCode") = true
       ∧ strict_eq (get cand_lax "icaoCode") (get ref_lax "icaoCode") = true
       ∧ strict_eq (get cand_lax "city") (get ref_lax "city") = true
       ∧ normalizeName (VStr (lit "Los Angeles International Airport"))
         = normalizeName (VStr (lit "Los Angeles International Airport"))).
Proof.
  apply (needsCorrection_counts_differences cand_lax ref_lax).
  - typed.
  - typed.
  - by_evaluation.
  - by_evaluation.
Defined.

Lemma correctAirport_nothing_to_correct_witness :
  ∃ out,
    correctAirport corrector_la cand_lax_agrees ref_lax
      (str "exactNameCountry")
    = Ok (out, corrector_la)
    ∧ get out "correctionStatus" = VStr (lit "no_correction_needed")
    ∧ get out "matchType" = str "exactNameCountry"
    ∧ ∀ k, k ≠ "correctionStatus" → k ≠ "matchType" →
           out !! k = cand_lax_agrees !! k.
Proof.
  apply (correctAirport_nothing_to_correct corrector_la cand_lax_agrees
           ref_lax (str "exactNameCountry") (lit "LOS ANGELES airport")
           (lit "Los Angeles International Airport")).
  - typed.
  - typed.
  - by_evaluation.
  - by_evaluation.
  - by_evaluation.
  - by_evaluation.
  - by_evaluation.
  - vm_compute. reflexivity.
Defined.

Lemma correctAirport_audit_trail_witness :
  ∃ updated this' original,
    correctAirport corrector_la cand_lax ref_lax (str "exactNameCountry")
    = Ok (updated, this')
    ∧ get updated "corrections"
      = VArr (VStr <$> [lit "ICAO: XXXX " ++ [arrow] ++ lit " KLAX"])
    ∧ get updated "originalData" = VObj original
    ∧ Forall (λ k, get original k = get cand_lax k)
        ["airportCode"; "icaoCode"; "airportName"; "city"; "country"]
    ∧ corrected (the_stats this') = S (corrected (the_stats corrector_la))
    ∧ total (the_stats this') = total (the_stats corrector_la)
    ∧ exactNameMatch (the_stats this')
      = exactNameMatch (the_stats corrector_la)
    ∧ partialNameMatch (the_stats this')
      = partialNameMatch (the_stats corrector_la)
    ∧ iataMatch (the_stats this') = iataMatch (the_stats corrector_la)
    ∧ noMatch (the_stats this') = noMatch (the_stats corrector_la)
    ∧ correctedAirports this' = correctedAirports corrector_la
    ∧ openFlightsData this' = openFlightsData corrector_la
    ∧ openFlightsByName this' = openFlightsByName corrector_la
    ∧ openFlightsByIATA this' = openFlightsByIATA corrector_la.
Proof.
  apply (correctAirport_audit_trail corrector_la cand_lax ref_lax
           (str "exactNameCountry")
           [lit "ICAO: XXXX " ++ [arrow] ++ lit " KLAX"]).
  - by_evaluation.
  - discriminate.
Defined.

Example run_la_ends :
  processAirports corrector_la [cand_lax; cand_empty; cand_lax_agrees]
  = Ok run_la.
Proof. by_evaluation. Qed.

Lemma processAirports_one_record_each_witness :
  ∃ outs,
    correctedAirports run_la = correctedAirports corrector_la ++ outs
    ∧ Forall2 (λ a out, ∀ k, k ∉ output_keys → out !! k = a !! k)
        [cand_lax; cand_empty; cand_lax_agrees] outs
    ∧ openFlightsData run_la = openFlightsData corrector_la
    ∧ openFlightsByName run_la = openFlightsByName corrector_la
    ∧ openFlightsByIATA run_la = openFlightsByIATA corrector_la.
Proof.
  apply (processAirports_one_record_each corrector_la run_la
           [cand_lax; cand_empty; cand_lax_agrees]).
  by_evaluation.
Defined.

Lemma processAirports_counts_each_once_witness :
  settled (the_stats run_la)
  = (settled (the_stats corrector_la)
     + length [cand_lax; cand_empty; cand_lax_agrees])%nat
  ∧ total (the_stats run_la) = total (the_stats corrector_la)
  ∧ (corrected (the_stats run_la) + noMatch (the_stats run_la)
     ≤ corrected (the_stats corrector_la) + noMatch (the_stats corrector_la)
       + length [cand_lax; cand_empty; cand_lax_agrees])%nat.
Proof.
  apply (processAirports_counts_each_once corrector_la run_la
           [cand_lax; cand_empty; cand_lax_agrees]).
  by_evaluation.
Defined.

Lemma processAirports_keeps_corrections_count_witness :
  length (correctionsOnly run_la) = corrected (the_stats run_la).
Proof.
  apply (processAirports_keeps_corrections_count corrector_la run_la
           [cand_lax; cand_empty; cand_lax_agrees]).
  - by_evaluation.
  - reflexivity.
Defined.

Lemma processAirports_keeps_unverified_count_witness :
  length (unverifiedAirports run_la) = noMatch (the_stats run_la).
Proof.
  apply (processAirports_keeps_unverified_count corrector_la run_la
           [cand_lax; cand_empty; cand_lax_agrees]).
  - by_evaluation.
  - repeat (constructor; [by_evaluation|]). constructor.
  - reflexivity.
Defined.

Lemma processAirports_statuses_witness :
  ∃ outs,
    correctedAirports run_la = correctedAirports corrector_la ++ outs
    ∧ Forall (λ out,
        get out "correctionStatus" = VStr (lit "corrected")
        ∨ get out "correctionStatus" = VStr (lit "no_correction_needed")
        ∨ (get out "correctionStatus" = VStr (lit "no_match")
           ∧ get out "unverified" = VBool true
           ∧ get out "matchType" = VStr (lit "none"))) outs.
Proof.
  apply (processAirports_statuses corrector_la run_la
           [cand_lax; cand_empty; cand_lax_agrees]).
  by_evaluation.
Defined.

(** The counters after that run: one exact match corrected, one record
    unverified, one exact match found correct. *)
Example run_la_counters :
  (exactNameMatch (the_stats run_la), corrected (the_stats run_la),
   noMatch (the_stats run_la), length (correctedAirports run_la))
  = (2, 1, 1, 3)%nat.
Proof. by_evaluation. Qed.

Lemma missing_countries_match_witness :
  findOpenFlightsMatch corrector_ely cand_no_country
  = Ok (Some (ref_no_country, exactNameCountry)).
Proof.
  apply (missing_countries_match corrector_ely cand_no_country (lit "ely")
           ref_no_country []).
  - by_evaluation.
  - by_evaluation.
  - right. left. by_evaluation.
  - left. by_evaluation.
Defined.

Lemma one_shared_word_is_a_hit_witness :
  partial_hit (lit "heathrow london") (lit "london city") = true.
Proof.
  apply (one_shared_word_is_a_hit (lit "heathrow london") (lit "london city")
           (lit "london")).
  - vm_compute. apply list_elem_of_further, list_elem_of_here.
  - vm_compute. apply list_elem_of_here.
  - vm_compute. lia.
Defined.

Lemma findOpenFlightsMatch_returns_witness :
  ∃ res, findOpenFlightsMatch corrector_la cand_lax = Ok res.
Proof.
  apply (findOpenFlightsMatch_returns corrector_la cand_lax).
  - typed.
  - repeat (constructor; [typed|]). constructor.
Defined.

Lemma ref_la_chile_ready : reference_ready ref_la_chile.
Proof. split; [typed|]. exists (lit "Los Angeles Airport"). by_evaluation. Qed.

Lemma ref_lax_ready : reference_ready ref_lax.
Proof.
  split; [typed|]. exists (lit "Los Angeles International Airport").
  by_evaluation.
Qed.

Lemma ref_other_ready : reference_ready ref_other.
Proof. split; [typed|]. exists (lit "Laxfield Aerodrome"). by_evaluation. Qed.

Lemma corrector_la_ready : maps_ready corrector_la.
Proof.
  apply maps_ready_intro.
  - repeat constructor;
      first [apply ref_la_chile_ready | apply ref_lax_ready
            | apply ref_other_ready].
  - apply map_Forall_insert_2; [apply ref_other_ready|].
    apply map_Forall_insert_2; [apply ref_la_chile_ready|].
    apply map_Forall_empty.
Qed.

Lemma processAirports_ends_witness :
  ∃ this',
    processAirports corrector_la [cand_lax; cand_empty; cand_lax_agrees]
    = Ok this'.
Proof.
  apply (processAirports_ends corrector_la
           [cand_lax; cand_empty; cand_lax_agrees]).
  - apply corrector_la_ready.
  - constructor.
    { split; [typed|]. exists (lit "Los Angeles International Airport").
      by_evaluation. }
    constructor.
    { split; [typed|]. exists []. by_evaluation. }
    constructor; [|constructor].
    split; [typed|]. exists (lit "LOS ANGELES airport"). by_evaluation.
Defined.

End MoreExamples.
